(** * center-temperature: the upload pipeline of [app.py]

    A shallow embedding of the reading-extraction pipeline of the
    dashboard ([_parse_numbers], [run_ocr]), of the naming scheme of
    stored images, of the record store and its "most recent" query, and of
    the upload handler, with the properties of the specification stated
    over them.

    Python values are modelled as follows.
    - [str]: the list of its code points ([list N]); [str "..."] turns a
      literal into that list.
    - [bytes]: [list byte].
    - [float]: the rational number its decimal literal denotes ([Q], in
      lowest terms). The double Python computes is the one nearest to
      that number; the rounding is not modelled, and of a value only
      what the rounding keeps is stated (which literal it is read from,
      its sign, its bounds by whole numbers).
    - exceptions: the type [Result], with [try_except] for
      [try: ... except: ...]. *)

From Stdlib Require Import ZArith NArith QArith List String Ascii Strings.Byte Lia Bool.
From stdpp Require Import base option list sorting gmap strings pretty.

Local Open Scope N_scope.

(** ** Exceptions *)

Inductive exn : Type :=
| ValueError
| IndexError
| AttributeError
| OSError
| OperationalError
| UnidentifiedImageError
| TesseractError
| HTTPException (status_code : Z) (detail : string).

Inductive Result (A : Type) : Type :=
| Ok (a : A)
| Raise (e : exn).
Arguments Ok {A} a.
Arguments Raise {A} e.

#[export] Instance Result_ret : MRet Result := fun A a => Ok a.
#[export] Instance Result_bind : MBind Result := fun A B k m =>
  match m with
  | Ok a => k a
  | Raise e => Raise e
  end.

(** [try: body  except: handler] with a bare [except], which catches
    every exception. *)
Definition try_except {A} (body handler : Result A) : Result A :=
  match body with
  | Ok a => Ok a
  | Raise _ => handler
  end.

(** ** Python strings *)

Abbreviation pystr := (list N).

Definition str (s : string) : pystr :=
  (fun a => N_of_ascii a) <$> list_ascii_of_string s.

(** [s.replace(old, new)] for one-character [old] and [new]. *)
Definition replace (old new : N) (s : pystr) : pystr :=
  (fun c => if c =? old then new else c) <$> s.

(** [s.startswith(prefix)] *)
Fixpoint startswith (s prefix : pystr) : bool :=
  match prefix, s with
  | [], _ => true
  | p :: prefix', c :: s' => (c =? p) && startswith s' prefix'
  | _ :: _, [] => false
  end.

(** [l[i]]: raises [IndexError] out of range. *)
Definition getitem {A} (l : list A) (i : nat) : Result A :=
  match l !! i with
  | Some x => Ok x
  | None => Raise IndexError
  end.

(** Truth value of a list: non-empty. *)
Definition truthy {A} (l : list A) : bool :=
  match l with [] => false | _ :: _ => true end.

(** ** Character classes of [re] on [str] patterns *)

(** [\s] on a [str] pattern: the characters for which [str.isspace] holds. *)
Definition is_space (c : N) : bool :=
  ((9 <=? c) && (c <=? 13)) || ((28 <=? c) && (c <=? 32))
  || (c =? 133) || (c =? 160) || (c =? 5760)
  || ((8192 <=? c) && (c <=? 8202))
  || (c =? 8232) || (c =? 8233) || (c =? 8239) || (c =? 8287) || (c =? 12288).

Section Unicode.

(** The decimal digits outside ASCII (Unicode category Nd) with their
    values; the table belongs to the Python runtime and depends on its
    Unicode version, so it is a parameter. [\d] and [float] both read it. *)
Variable unicode_decimal : N -> option N.

Definition decimal (c : N) : option N :=
  if (48 <=? c) && (c <=? 57) then Some (c - 48)
  else if c <? 128 then None
  else (fun d => d mod 10) <$> unicode_decimal c.   (* a value is 0..9 *)

(** [\d] *)
Definition is_digit (c : N) : bool := bool_decide (is_Some (decimal c)).

(** ** A backtracking matcher for the patterns of the program

    [run r s g] lists every way pattern [r] can match a prefix of [s], in
    the order in which the backtracking engine of [re] tries them: the
    head of the list is the match [re] reports at this position. An entry
    is [(w, t, g')]: the matched text [w], the rest [t] of the input and
    the text of group 1. *)

Inductive regex : Type :=
| Eps
| Cls (p : N -> bool)        (* one character of a class *)
| Seq (a b : regex)          (* ab *)
| Alt (a b : regex)          (* a|b *)
| Opt (a : regex)            (* a? *)
| Star (p : N -> bool)       (* [class]* *)
| Grp (a : regex).           (* (a), the capturing group *)

Fixpoint star (p : N -> bool) (s : pystr) : list (pystr * pystr) :=
  match s with
  | c :: s' =>
      if p c then ((fun '(w, t) => (c :: w, t)) <$> star p s') ++ [([], s)]
      else [([], s)]
  | [] => [([], [])]
  end.

Fixpoint run (r : regex) (s : pystr) (g : option pystr)
  : list (pystr * pystr * option pystr) :=
  match r with
  | Eps => [([], s, g)]
  | Cls p =>
      match s with
      | c :: s' => if p c then [([c], s', g)] else []
      | [] => []
      end
  | Seq a b =>
      '(w1, s1, g1) ← run a s g;
      '(w2, s2, g2) ← run b s1 g1;
      [(w1 ++ w2, s2, g2)]
  | Alt a b => run a s g ++ run b s g
  | Opt a => run a s g ++ [([], s, g)]
  | Star p => (fun '(w, t) => (w, t, g)) <$> star p s
  | Grp a => (fun '(w, t, _) => (w, t, Some w)) <$> run a s g
  end.

(** [a{lo,hi}], greedy. *)
Fixpoint Repeat (lo hi : nat) (a : regex) : regex :=
  match hi with
  | O => Eps
  | S hi' =>
      match lo with
      | O => Opt (Seq a (Repeat 0 hi' a))
      | S lo' => Seq a (Repeat lo' hi' a)
      end
  end.

Definition chr (c : N) : regex := Cls (N.eqb c).

(** A lower-case ASCII letter under [re.I]. The letters of the program's
    pattern (t, e, m, p, r, a, u) have no case variant outside ASCII. *)
Definition lower (c : N) : N :=
  if (65 <=? c) && (c <=? 90) then c + 32 else c.
Definition chr_i (c : N) : regex := Cls (fun x => lower x =? c).
Fixpoint lit_i (l : pystr) : regex :=
  match l with
  | [] => Eps
  | c :: l' => Seq (chr_i c) (lit_i l')
  end.

(** The scan of [re.finditer]: the leftmost match, then on from its end.
    [skip] counts the characters of the last match still to pass. The
    patterns of this program consume at least one digit
    ([patterns_consume]), so the rules of [re] for empty matches do not
    come into play. *)
Fixpoint scan (r : regex) (skip : nat) (s : pystr)
  : list (pystr * option pystr) :=
  match s with
  | [] => []
  | _ :: s' =>
      match skip with
      | S k => scan r k s'
      | O =>
          match run r s None with
          | (w, _, g) :: _ => (w, g) :: scan r (pred (length w)) s'
          | [] => scan r 0 s'
          end
      end
  end.

(** [re.findall(r, s)] for a pattern without group: the matched texts. *)
Definition findall0 (r : regex) (s : pystr) : list pystr :=
  fst <$> scan r 0 s.

(** [re.findall(r, s)] for a pattern with one group: the group's texts. *)
Definition findall1 (r : regex) (s : pystr) : list pystr :=
  (fun m => default [] (snd m)) <$> scan r 0 s.

(** ** The three patterns of [_parse_numbers] *)

Definition digit : regex := Cls is_digit.
Definition white : regex := Star is_space.

(** [\d{1,2}(?:\.\d{1,2})?] *)
Definition number_re : regex :=
  Seq (Repeat 1 2 digit) (Opt (Seq (chr 46) (Repeat 1 2 digit))).

(** [-?\d{1,2}(?:\.\d{1,2})?] *)
Definition signed_re : regex := Seq (Opt (chr 45)) number_re.

(** [(?:t|temp|temperatura)?\s*[:=]?\s*(-?\d{1,2}(?:\.\d{1,2})?)], [re.I] *)
Definition temp_re : regex :=
  Seq (Opt (Alt (lit_i (str "t"))
           (Alt (lit_i (str "temp")) (lit_i (str "temperatura")))))
 (Seq white
 (Seq (Opt (Cls (fun c => (c =? 58) || (c =? 61))))
 (Seq white
      (Grp signed_re)))).

(** [(\d{1,2}(?:\.\d{1,2})?)\s*%] *)
Definition hum_re : regex :=
  Seq (Grp number_re) (Seq white (chr 37)).

(** ** [float] on the decimal literals the parser hands to it

    [float] is modelled on the literals [[sign] digits [. digits]] and
    [[sign] . digits]; on any other text the model raises [ValueError].
    (The real [float] also reads exponents, [inf], [nan], underscores and
    surrounding blanks; no text of those forms is matched by the patterns
    above, see [float_signed].) *)

Fixpoint read_digits (s : pystr) : list N * pystr :=
  match s with
  | c :: s' =>
      match decimal c with
      | Some d => let '(ds, t) := read_digits s' in (d :: ds, t)
      | None => ([], s)
      end
  | [] => ([], [])
  end.

Definition of_digits (ds : list N) : N :=
  fold_left (fun acc d => 10 * acc + d) ds 0.

Fixpoint pow10 (n : nat) : positive :=
  match n with
  | O => 1%positive
  | S n' => (10 * pow10 n')%positive
  end.

(** The literal without its sign. *)
Definition float_unsigned (neg : bool) (s1 : pystr) : Result Q :=
  let '(ip, s2) := read_digits s1 in
  let '(fp, s3) :=
    match s2 with
    | c :: t => if c =? 46 then read_digits t else ([], s2)
    | [] => ([], s2)
    end in
  match s3, ip ++ fp with
  | [], _ :: _ =>
      let m := Z.of_N (of_digits (ip ++ fp)) in
      Ok (Qred ((if neg then (- m)%Z else m) # pow10 (length fp)))
  | _, _ => Raise ValueError
  end.

Definition float (s : pystr) : Result Q :=
  match s with
  | c :: t =>
      if c =? 45 then float_unsigned true t
      else if c =? 43 then float_unsigned false t
      else float_unsigned false s
  | [] => Raise ValueError
  end.

(** ** [_parse_numbers] *)

Definition is_None {A} (o : option A) : bool :=
  match o with None => true | Some _ => false end.

Definition mtemp (text : pystr) : list pystr := findall1 temp_re text.
Definition mhum (text : pystr) : list pystr := findall1 hum_re text.
Definition nums (text : pystr) : list pystr := findall0 signed_re text.

(** [try: var = float(l[i])  except: pass] *)
Definition try_float (l : list pystr) (i : nat) (var : option Q)
  : Result (option Q) :=
  try_except (x ← getitem l i; v ← float x; Ok (Some v)) (Ok var).

Definition _parse_numbers (text : pystr) : Result (option Q * option Q) :=
  let text := replace 44 46 text in
  let temp := None in
  let hum := None in
  let mtemp := mtemp text in
  temp ← (if truthy mtemp then try_float mtemp 0 temp else Ok temp);
  let mhum := mhum text in
  hum ← (if truthy mhum then try_float mhum 0 hum else Ok hum);
  '(temp, hum) ←
    (if is_None temp || is_None hum then
       let nums := nums text in
       if truthy nums then
         temp ← (if is_None temp then try_float nums 0 temp else Ok temp);
         hum ← (if (2 <=? length nums)%nat && is_None hum
                then try_float nums 1 hum else Ok hum);
         Ok (temp, hum)
       else Ok (temp, hum)
     else Ok (temp, hum));
  Ok (temp, hum).

End Unicode.

(** ** Content hash: SHA-256 ([hashlib.sha256(raw).hexdigest()]) *)

Module SHA256.

Definition mask32 : N := 0xffffffff.
Definition add32 (x y : N) : N := N.land (x + y) mask32.
Definition rotr (n x : N) : N :=
  N.lor (N.shiftr x n) (N.land (N.shiftl x (32 - n)) mask32).
Definition not32 (x : N) : N := N.lxor x mask32.
Definition xor3 (x y z : N) : N := N.lxor (N.lxor x y) z.

Definition Ch (x y z : N) : N := N.lxor (N.land x y) (N.land (not32 x) z).
Definition Maj (x y z : N) : N := xor3 (N.land x y) (N.land x z) (N.land y z).
Definition Sigma0 (x : N) : N := xor3 (rotr 2 x) (rotr 13 x) (rotr 22 x).
Definition Sigma1 (x : N) : N := xor3 (rotr 6 x) (rotr 11 x) (rotr 25 x).
Definition sigma0 (x : N) : N := xor3 (rotr 7 x) (rotr 18 x) (N.shiftr x 3).
Definition sigma1 (x : N) : N := xor3 (rotr 17 x) (rotr 19 x) (N.shiftr x 10).

(** The constants, as the standard derives them: the first 32 bits of
    the fractional parts of the cube roots (round constants) and of the
    square roots (initial state) of the first primes. *)
Definition is_prime (n : nat) : bool :=
  forallb (fun d => negb (n mod d =? 0)%nat) (seq 2 (n - 2)).

Definition primes (count : nat) : list N :=
  N.of_nat <$> take count (List.filter is_prime (seq 2 400)).

(** The integer cube root, bit by bit from above. *)
Fixpoint cube_root (bits : nat) (n r : N) : N :=
  match bits with
  | O => r
  | S b =>
      let r' := N.lor r (N.shiftl 1 (N.of_nat b)) in
      cube_root b n (if r' * r' * r' <=? n then r' else r)
  end.

Definition K : list N :=
  (fun p => N.land (cube_root 40 (N.shiftl p 96) 0) mask32) <$> primes 64.

Definition state : Type := N * N * N * N * N * N * N * N.

Definition H0 : state :=
  match (fun p => N.land (N.sqrt (N.shiftl p 64)) mask32) <$> primes 8 with
  | [a; b; c; d; e; f; g; h] => (a, b, c, d, e, f, g, h)
  | _ => (0, 0, 0, 0, 0, 0, 0, 0)
  end.

(** Padding: the byte 0x80, zero bytes up to 56 modulo 64, then the length
    in bits as a 64-bit big-endian number. *)
Definition be_bytes (width : nat) (x : N) : list N :=
  (fun i => N.land (N.shiftr x (8 * N.of_nat i)) 0xff) <$> rev (seq 0 width).

Definition pad (msg : list byte) : list N :=
  let l := length msg in
  (Byte.to_N <$> msg) ++ [0x80]
    ++ repeat 0 ((64 - (l + 9) mod 64) mod 64)%nat
    ++ be_bytes 8 (8 * N.of_nat l).

Fixpoint groups {A} (size count : nat) (l : list A) : list (list A) :=
  match count with
  | O => []
  | S count' => take size l :: groups size count' (drop size l)
  end.

Definition be_word (bs : list N) : N :=
  fold_left (fun acc b => N.lor (N.shiftl acc 8) b) bs 0.

(** The 16-word blocks of the padded message. *)
Definition blocks (msg : list byte) : list (list N) :=
  let p := pad msg in
  let ws := be_word <$> groups 4 (length p / 4) p in
  groups 16 (length ws / 16) ws.

Definition schedule_step (w : list N) : list N :=
  let i := length w in
  let at_ k := nth (i - k) w 0 in
  w ++ [add32 (add32 (sigma1 (at_ 2%nat)) (at_ 7%nat))
              (add32 (sigma0 (at_ 15%nat)) (at_ 16%nat))].

Definition schedule (block : list N) : list N :=
  Nat.iter 48 schedule_step block.

Definition round (st : state) (kw : N * N) : state :=
  let '(a, b, c, d, e, f, g, h) := st in
  let '(k, w) := kw in
  let t1 := add32 (add32 (add32 h (Sigma1 e)) (add32 (Ch e f g) k)) w in
  let t2 := add32 (Sigma0 a) (Maj a b c) in
  (add32 t1 t2, a, b, c, add32 d t1, e, f, g).

Definition compress (st : state) (block : list N) : state :=
  let '(a, b, c, d, e, f, g, h) :=
    fold_left round (combine K (schedule block)) st in
  let '(a0, b0, c0, d0, e0, f0, g0, h0) := st in
  (add32 a0 a, add32 b0 b, add32 c0 c, add32 d0 d,
   add32 e0 e, add32 f0 f, add32 g0 g, add32 h0 h).

Definition sha256 (msg : list byte) : state :=
  fold_left compress (blocks msg) H0.

Definition hexchar (d : N) : N := if d <? 10 then 48 + d else 87 + d.

Definition hex8 (w : N) : pystr :=
  (fun i => hexchar (N.land (N.shiftr w (4 * i)) 0xf)) <$> [7; 6; 5; 4; 3; 2; 1; 0].

Definition hexdigest (st : state) : pystr :=
  let '(a, b, c, d, e, f, g, h) := st in
  hex8 a ++ hex8 b ++ hex8 c ++ hex8 d ++ hex8 e ++ hex8 f ++ hex8 g ++ hex8 h.

End SHA256.

Definition bytes_of (l : list N) : list byte :=
  (fun n => default x00 (Byte.of_N n)) <$> l.

(** ** Timestamps *)

(** The fields of [datetime.datetime.now(APP_TZ)]: local wall-clock time
    and its offset from UTC in seconds. *)
Record datetime : Type := {
  year : N; month : N; day : N;
  hour : N; minute : N; second : N; microsecond : N;
  utcoffset : Z
}.

(** The fields a well-formed [datetime] of the current era has. *)
Definition valid_datetime (d : datetime) : Prop :=
  1000 <= year d <= 9999 /\ 1 <= month d <= 12 /\ 1 <= day d <= 31 /\
  hour d < 24 /\ minute d < 60 /\ second d < 60 /\ microsecond d < 1000000.

(** [n] in decimal, zero-padded to [width] digits (the [%02d] of the
    format codes; a field of a [datetime] fits its width). *)
Fixpoint zdec (width : nat) (n : N) : pystr :=
  match width with
  | O => []
  | S w => zdec w (n / 10) ++ [48 + n mod 10]
  end.

(** [now.strftime("%Y%m%d_%H%M%S")] *)
Definition strftime (d : datetime) : pystr :=
  zdec 4 (year d) ++ zdec 2 (month d) ++ zdec 2 (day d) ++ str "_"
    ++ zdec 2 (hour d) ++ zdec 2 (minute d) ++ zdec 2 (second d).

(** [now.isoformat()] of an aware [datetime]. *)
Definition isoformat (d : datetime) : pystr :=
  let off := Z.to_N (Z.abs (utcoffset d)) in
  zdec 4 (year d) ++ str "-" ++ zdec 2 (month d) ++ str "-" ++ zdec 2 (day d)
    ++ str "T" ++ zdec 2 (hour d) ++ str ":" ++ zdec 2 (minute d)
    ++ str ":" ++ zdec 2 (second d)
    ++ (if microsecond d =? 0 then [] else str "." ++ zdec 6 (microsecond d))
    ++ (if (utcoffset d <? 0)%Z then str "-" else str "+")
    ++ zdec 2 (off / 3600) ++ str ":" ++ zdec 2 (off mod 3600 / 60)
    ++ (if off mod 60 =? 0 then [] else str ":" ++ zdec 2 (off mod 60)).

(** The second-granularity part of a timestamp. *)
Definition to_second (d : datetime) : N * N * N * N * N * N :=
  (year d, month d, day d, hour d, minute d, second d).

(** ** Content Store: the name of the stored image *)

(** [sha = hashlib.sha256(raw).hexdigest()] *)
Definition content_hash (raw : list byte) : pystr :=
  SHA256.hexdigest (SHA256.sha256 raw).

(** [fname = f"{ts}_{sha[:8]}.jpg"] *)
Definition stored_name (now : datetime) (raw : list byte) : pystr :=
  let sha := content_hash raw in
  let ts := strftime now in
  ts ++ str "_" ++ take 8 sha ++ str ".jpg".

(** ** Record Store *)

(** A row of the table [photos]. *)
Record photo : Type := {
  photo_id : Z;
  taken_at : pystr;
  filename : pystr;
  sha256 : pystr;
  width : Z;
  height : Z;
  exif_json : option pystr;
  ocr_temp_c : option Q;
  ocr_humidity : option Q;
  device_model : option pystr
}.

(** The table: its rows in rowid order and the largest rowid given out so
    far (AUTOINCREMENT). *)
Record table : Type := {
  rows : list photo;
  last_rowid : Z
}.

(** [init_db] on a fresh database file. *)
Definition init_db : table := {| rows := []; last_rowid := 0 |}.

(** [INSERT INTO photos (taken_at, ...) VALUES (...)]: the row gets the
    next rowid; [r] carries the nine columns given. *)
Definition insert_photo (t : table) (r : photo) : table :=
  let i := (last_rowid t + 1)%Z in
  {| rows := rows t ++ [{| photo_id := i;
                           taken_at := taken_at r;
                           filename := filename r;
                           sha256 := sha256 r;
                           width := width r;
                           height := height r;
                           exif_json := exif_json r;
                           ocr_temp_c := ocr_temp_c r;
                           ocr_humidity := ocr_humidity r;
                           device_model := device_model r |}];
     last_rowid := i |}.

(** Comparison of TEXT values (BINARY collation): lexicographic. *)
Fixpoint text_compare (a b : pystr) : comparison :=
  match a, b with
  | [], [] => Eq
  | [], _ :: _ => Lt
  | _ :: _, [] => Gt
  | x :: a', y :: b' =>
      match x ?= y with
      | Eq => text_compare a' b'
      | c => c
      end
  end.

(** *** [SELECT * FROM photos ORDER BY taken_at DESC LIMIT n]

    SQL leaves the order of rows with equal keys to the engine. The
    model follows the program SQLite runs for this statement: the table is
    read in rowid order; each row is given the next sequence number and
    filed in an index ordered by [taken_at] descending, then by sequence
    number; once [n] rows are in, the last entry is dropped before a row
    that sorts before it is filed, and other rows are passed over. *)

Record entry : Type := {
  key : pystr;
  sequence : nat;
  row : photo
}.

(** The order of the index with a key in descending order. *)
Definition entry_lt_desc (e1 e2 : entry) : bool :=
  match text_compare (key e1) (key e2) with
  | Gt => true
  | Eq => (sequence e1 <? sequence e2)%nat
  | Lt => false
  end.

(** The order of the index with a key in ascending order. *)
Definition entry_lt_asc (e1 e2 : entry) : bool :=
  match text_compare (key e1) (key e2) with
  | Lt => true
  | Eq => (sequence e1 <? sequence e2)%nat
  | Gt => false
  end.

Fixpoint idx_insert (lt : entry -> entry -> bool) (e : entry)
  (idx : list entry) : list entry :=
  match idx with
  | [] => [e]
  | x :: idx' => if lt e x then e :: idx else x :: idx_insert lt e idx'
  end.

Record sorter : Type := {
  index : list entry;      (* the entries, in index order *)
  counter : nat;           (* rows still to file before the limit is met *)
  next_sequence : nat
}.

Definition sorter_step (st : sorter) (r : photo) : sorter :=
  let e := {| key := taken_at r; sequence := next_sequence st; row := r |} in
  match counter st with
  | S c =>
      {| index := idx_insert entry_lt_desc e (index st);
         counter := c;
         next_sequence := S (next_sequence st) |}
  | O =>
      let idx :=
        match last (index st) with
        | Some l =>
            match text_compare (key l) (key e) with
            | Lt => idx_insert entry_lt_desc e (removelast (index st))
            | _ => index st
            end
        | None => index st
        end in
      {| index := idx; counter := 0; next_sequence := S (next_sequence st) |}
  end.

Definition select_recent (n : nat) (t : table) : list photo :=
  row <$> index (fold_left sorter_step (rows t)
                   {| index := []; counter := n; next_sequence := 0 |}).

(** *** [SELECT taken_at, ocr_temp_c, ocr_humidity FROM photos
         WHERE ocr_temp_c IS NOT NULL OR ocr_humidity IS NOT NULL
         ORDER BY taken_at ASC]

    The rows with a reading, sorted by [taken_at]; rows with equal keys
    stay in the order in which the table is read. *)

Definition has_reading (r : photo) : bool :=
  negb (is_None (ocr_temp_c r)) || negb (is_None (ocr_humidity r)).

Definition select_series (t : table) : list (pystr * option Q * option Q) :=
  let file st r :=
    (idx_insert entry_lt_asc
       {| key := taken_at r; sequence := snd st; row := r |} (fst st),
     S (snd st)) in
  (fun e => (taken_at (row e), ocr_temp_c (row e), ocr_humidity (row e)))
    <$> fst (fold_left file (filter (fun r => has_reading r = true) (rows t)) ([], O)).

(** The view model of [dashboard]: [last], [series], [table] (the path
    on which the three queries succeed). *)
Definition dashboard (t : table)
  : option photo * list (pystr * option Q * option Q) * list photo :=
  let last := head (select_recent 1 t) in
  let series := select_series t in
  let table := select_recent 20 t in
  (last, series, table).

(** ** The upload pipeline *)

(** A value of the tag table of an image: [bytes], [str], or another
    object (a number, a tuple, a rational). *)
Inductive exif_value (pyobj : Type) : Type :=
| VBytes (b : list byte)
| VStr (s : pystr)
| VObj (o : pyobj).
Arguments VBytes {pyobj} b.
Arguments VStr {pyobj} s.
Arguments VObj {pyobj} o.

(** The imaging and recognition libraries and the runtime are outside the
    repository: the decoded image, its operations, the recognition
    backend and the tables are an interface the pipeline is written
    against. *)
Class Libraries : Type := {
  image : Type;
  gray_image : Type;
  bw_image : Type;
  pyobj : Type;
  (** [Image.open(io.BytesIO(raw)).convert("RGB")]; raises on bytes that
      are no image. The value is the image [convert] makes, not the one
      [Image.open] read from the file, see [convert_makes_plain_image]. *)
  Image_open_RGB : list byte -> Result image;
  (** [getattr(img, "_getexif", lambda: None)()]: the tag table as the
      list of its items, [None] when the image has none. *)
  _getexif : image -> option (list (Z * exif_value pyobj));
  (** [ExifTags.TAGS]: tag number to tag name. *)
  TAGS : gmap Z pystr;
  (** [v.decode(errors="ignore")] *)
  decode_ignore : list byte -> pystr;
  (** [str(v)] of a value that is neither [bytes] nor [str]. *)
  str_obj : pyobj -> pystr;
  (** [str(exif)] of the tag dictionary. *)
  str_dict : gmap pystr pystr -> pystr;
  (** The bytes [img.save(path, format="JPEG", quality=90)] writes. *)
  save_JPEG : image -> list byte;
  img_width : image -> Z;
  img_height : image -> Z;
  (** [img.convert("L")], [gray.point(f, mode="1")] and
      [pytesseract.image_to_string]; each may raise. *)
  convert_L : image -> Result gray_image;
  point : (N -> N) -> gray_image -> Result bw_image;
  image_to_string : bw_image -> Result pystr;
  (** Whether [import pytesseract] succeeded when the module was loaded. *)
  pytesseract_imported : bool;
  (** The table of decimal digits of the runtime, see [decimal]. *)
  unicode_decimal : N -> option N;
  (** [Path.exists()] for a name under which the directory holds no
      file, as the file system of the host answers: [True] for the
      directory itself and its parent and for a name the host takes for
      another spelling of the name of a file, an [OSError] for a name
      beyond the limits of the host, [False] otherwise. *)
  host_exists : gmap pystr (list byte) -> pystr -> Result bool;
  (** The image [convert] returns is a new [Image.Image]: the attribute
      [_getexif], which the classes of image files define, is not
      there, and [getattr] takes its default. *)
  convert_makes_plain_image :
    forall raw img, Image_open_RGB raw = Ok img -> _getexif img = None
}.

Section Pillow.

Context {libs : Libraries}.

(** Both branches of the import guard assign [False]. *)
Definition OCR_AVAILABLE : bool :=
  if pytesseract_imported then false else false.

(** With [errors="ignore"] the call of [decode] does not raise; the
    [except] around it has nothing to catch. *)
Definition _exif_to_dict (img : image) : gmap pystr pystr :=
  match _getexif img with
  | None | Some [] => ∅
  | Some exif =>
      fold_left (fun res '(k, v) =>
        let tag := match TAGS !! k with
                   | Some name => name
                   | None => str (pretty k)
                   end in
        let v := match v with
                 | VBytes b => decode_ignore b
                 | VStr s => s
                 | VObj o => str_obj o
                 end in
        <[tag := v]> res) exif ∅
  end.

(** The body of [run_ocr], with the value of the global [OCR_AVAILABLE]
    as an argument. *)
Definition run_ocr_body (available : bool) (img : image)
  : Result (option Q * option Q) :=
  if negb available then Ok (None, None)
  else
    gray ← convert_L img;
    bw ← point (fun x => if 150 <? x then 255 else 0) gray;
    match image_to_string bw with
    | Raise _ => Ok (None, None)
    | Ok text => _parse_numbers unicode_decimal text
    end.

Definition run_ocr (img : image) : Result (option Q * option Q) :=
  run_ocr_body OCR_AVAILABLE img.

(** [a or b] on values that are [None] or a [str]. *)
Definition or_ (a b : option pystr) : option pystr :=
  match a with
  | Some (_ :: _) => a
  | _ => b
  end.

(** [exif.get("Model") or exif.get("Make") or ""] *)
Definition device_model_of (exif : gmap pystr pystr) : option pystr :=
  or_ (or_ (exif !! str "Model") (exif !! str "Make")) (Some []).

(** An upload: the content type the part declares, [None] when it
    declares none, and the bytes of the part. *)
Record UploadFile : Type := {
  content_type : option pystr;
  body : list byte
}.

(** What the handler acts on: the files of [UPLOAD_DIR], each under the
    name that was written, and the table. *)
Record world : Type := {
  uploads : gmap pystr (list byte);
  photos : table
}.

(** What befalls one request from outside the program. The reading of
    the part may raise: [read_raises] is then the exception. [img.save]
    may raise: [save_raises] is then the exception and what the file
    holds afterwards, [None] when the file is as before (it could not be
    opened, or the library removed what it had created). [db()], the
    [INSERT] and the [commit] may raise: [insert_raises] is then the
    exception, and the row is not in the table. *)
Record faults : Type := {
  read_raises : option exn;
  save_raises : option (exn * option (list byte));
  insert_raises : option exn
}.

Inductive response : Type :=
| RedirectResponse (url : pystr) (status_code : Z).

(** The handler, with the time [now] it reads from the clock and what
    befalls its writes. [photo.content_type.startswith] raises
    [AttributeError] on [None]. *)
Definition upload_photo (w : world) (photo : UploadFile) (now : datetime)
    (env : faults) : Result response * world :=
  match content_type photo with
  | None => (Raise AttributeError, w)
  | Some declared =>
  if negb (startswith declared (str "image/")) then
    (Raise (HTTPException 400 "Envie uma imagem"), w)
  else
    match read_raises env with
    | Some e => (Raise e, w)
    | None =>
    let raw := body photo in
    let sha := content_hash raw in
    let fname := stored_name now raw in
    match Image_open_RGB raw with
    | Raise e => (Raise e, w)
    | Ok img =>
        let exif := _exif_to_dict img in
        let device_model := device_model_of exif in
        match run_ocr img with
        | Raise e => (Raise e, w)
        | Ok (ocr_temp, ocr_hum) =>
            match save_raises env with
            | Some (e, remains) =>
                (Raise e,
                 {| uploads := match remains with
                               | Some data => <[fname := data]> (uploads w)
                               | None => uploads w
                               end;
                    photos := photos w |})
            | None =>
                let files := <[fname := save_JPEG img]> (uploads w) in
                let r := {| photo_id := 0;
                            taken_at := isoformat now;
                            filename := fname;
                            sha256 := sha;
                            width := img_width img;
                            height := img_height img;
                            exif_json := if decide (exif = ∅) then None
                                         else Some (str_dict exif);
                            ocr_temp_c := ocr_temp;
                            ocr_humidity := ocr_hum;
                            device_model := device_model |} in
                match insert_raises env with
                | Some e => (Raise e, {| uploads := files; photos := photos w |})
                | None =>
                    (Ok (RedirectResponse (str "/") 303),
                     {| uploads := files; photos := insert_photo (photos w) r |})
                end
            end
        end
    end
    end
  end.

End Pillow.

(** ** The language of a pattern, for stating what a match is *)

Fixpoint lang (r : regex) (w : pystr) : Prop :=
  match r with
  | Eps => w = []
  | Cls p => exists c, w = [c] /\ p c = true
  | Seq a b => exists u v, w = u ++ v /\ lang a u /\ lang b v
  | Alt a b => lang a w \/ lang b w
  | Opt a => lang a w \/ w = []
  | Star p => Forall (fun c => p c = true) w
  | Grp a => lang a w
  end.

(** A pattern without capturing group. *)
Fixpoint groupless (r : regex) : Prop :=
  match r with
  | Eps | Cls _ | Star _ => True
  | Seq a b | Alt a b => groupless a /\ groupless b
  | Opt a => groupless a
  | Grp _ => False
  end.


Section Tokens.

Variable nd : N -> option N.

(** A run of one or two decimal digits. *)
Definition digits12 (w : pystr) : Prop :=
  Forall (fun c => is_digit nd c = true) w /\ (1 <= length w <= 2)%nat.

(** A 1–2-digit number with an optional decimal part of 1–2 digits. *)
Definition number_token (w : pystr) : Prop :=
  exists ip, digits12 ip /\
    (w = ip \/ exists fp, digits12 fp /\ w = ip ++ [46] ++ fp).

(** The same with an optional minus sign before it. *)
Definition signed_token (w : pystr) : Prop :=
  number_token w \/ exists n, number_token n /\ w = 45 :: n.

(** The text of [_parse_numbers] once the commas are periods. *)
Definition normalized (text : pystr) : pystr := replace 44 46 text.

(** [tok] occurs in [text] after [pre], followed by the blanks [ws] and a
    percent sign. *)
Definition percent_occurrence (text pre tok ws post : pystr) : Prop :=
  text = pre ++ tok ++ ws ++ [37] ++ post /\
  number_token tok /\ Forall (fun c => is_space c = true) ws.

(** A value of the result: absent, or what [float] reads from a numeric
    token. *)
Definition parsed_number (o : option Q) : Prop :=
  match o with
  | None => True
  | Some v => exists tok, signed_token tok /\ float nd tok = Ok v
  end.


(** The values of [temp] and [hum] when the patterns have been tried
    (lines 96 to 104), and the guards under which the positional
    fallback then assigns to them (lines 105 to 112). *)
Definition temp_by_pattern (text : pystr) : Result (option Q) :=
  let text := normalized text in
  if truthy (mtemp nd text) then try_float nd (mtemp nd text) 0 None else Ok None.

Definition hum_by_pattern (text : pystr) : Result (option Q) :=
  let text := normalized text in
  if truthy (mhum nd text) then try_float nd (mhum nd text) 0 None else Ok None.

Definition fallback_sets_temp (text : pystr) : bool :=
  match temp_by_pattern text, hum_by_pattern text with
  | Ok temp, Ok hum =>
      (is_None temp || is_None hum)
      && truthy (nums nd (normalized text)) && is_None temp
  | _, _ => false
  end.

Definition fallback_sets_hum (text : pystr) : bool :=
  match temp_by_pattern text, hum_by_pattern text with
  | Ok temp, Ok hum =>
      (is_None temp || is_None hum)
      && truthy (nums nd (normalized text))
      && ((2 <=? length (nums nd (normalized text)))%nat && is_None hum)
  | _, _ => false
  end.



End Tokens.

(** ** The order of the "most recent" rows *)

(** [r1] comes before [r2]: a later [taken_at] first; with equal
    [taken_at], the row inserted first (smaller identifier). *)
Definition recent_before (r1 r2 : photo) : Prop :=
  text_compare (taken_at r1) (taken_at r2) = Gt \/
  (taken_at r1 = taken_at r2 /\ (photo_id r1 < photo_id r2)%Z).

(** The table after a sequence of inserts into a fresh database. *)
Definition table_of (inserts : list photo) : table :=
  fold_left insert_photo inserts init_db.

(** The state of the sorter after the rows [done] of the table have been
    read: the index is in order and holds [n] entries, or all rows read
    when they are fewer; the counter tells how many are missing; every
    entry is the row read at its sequence number. *)
Definition sorter_inv (n : nat) (done : list photo) (st : sorter) : Prop :=
  StronglySorted (fun e1 e2 => entry_lt_desc e1 e2 = true) (index st) /\
  length (index st) = Nat.min n (length done) /\
  counter st = (n - length done)%nat /\
  next_sequence st = length done /\
  Forall (fun e => done !! sequence e = Some (row e) /\
                   key e = taken_at (row e)) (index st).

(** ** Sample inputs *)

(** A fragment of the table of decimal digits: Arabic-Indic, Devanagari
    and fullwidth digits. *)
Definition sample_decimal (c : N) : option N :=
  if (0x660 <=? c) && (c <=? 0x669) then Some (c - 0x660)
  else if (0x966 <=? c) && (c <=? 0x96f) then Some (c - 0x966)
  else if (0xff10 <=? c) && (c <=? 0xff19) then Some (c - 0xff10)
  else None.

(** Two binary PPM images of one pixel, [b"P6 1 1 255\n\x01V("] and
    [b"P6 1 1 255\n\x01m~"]. *)
Definition ppm_a : list byte :=
  bytes_of (str "P6 1 1 255" ++ [10; 1; 86; 40]).
Definition ppm_b : list byte :=
  bytes_of (str "P6 1 1 255" ++ [10; 1; 109; 126]).

(** 2025-03-14 09:26:53 in São Paulo, and the second after it. *)
Definition morning : datetime :=
  {| year := 2025; month := 3; day := 14; hour := 9; minute := 26;
     second := 53; microsecond := 589793; utcoffset := -10800 |}.
Definition a_second_later : datetime :=
  {| year := 2025; month := 3; day := 14; hour := 9; minute := 26;
     second := 54; microsecond := 0; utcoffset := -10800 |}.

(** A test bench for the pipeline: an image is its tag table, absent
    for an image that is no image file; the decoder reads every upload
    and, a conversion being its last step, returns an image without
    table; the recognition backend always fails; the file system is
    case-sensitive and has the limit of 255 characters for a name. *)
Definition sample_image : Type := option (list (Z * exif_value Z)).
Definition canon_no_model : sample_image :=
  Some [(271%Z, VStr (str "Canon")); (272%Z, VStr [])].

Definition test_bench : Libraries := {|
  image := sample_image;
  gray_image := unit;
  bw_image := unit;
  pyobj := Z;
  Image_open_RGB := fun _ => Ok None;
  _getexif := fun img => img;
  TAGS := {[ 271%Z := str "Make"; 272%Z := str "Model" ]};
  decode_ignore := fun _ => [];
  str_obj := fun z => str (pretty z);
  str_dict := fun _ => str "{}";
  save_JPEG := fun _ => [];
  img_width := fun _ => 1%Z;
  img_height := fun _ => 1%Z;
  convert_L := fun _ => Ok tt;
  point := fun _ _ => Ok tt;
  image_to_string := fun _ => Raise TesseractError;
  pytesseract_imported := true;
  unicode_decimal := sample_decimal;
  host_exists := fun _ name =>
    if bool_decide (name ∈ [[]; str "."; str ".."]) then Ok true
    else if (255 <? length name)%nat then Raise OSError
    else Ok false;
  convert_makes_plain_image := fun raw img H =>
    match H in _ = r return match r with Ok i => i = None | Raise _ => True end
    with eq_refl => eq_refl end
|}.

Definition sample_upload (content_type : string) : UploadFile :=
  {| content_type := Some (str content_type); body := ppm_a |}.
Definition no_faults : faults :=
  {| read_raises := None; save_raises := None; insert_raises := None |}.
Definition empty_world : world := {| uploads := ∅; photos := init_db |}.

(** ** What the parser comes to *)

Section Reading.

Variable nd : N -> option N.

(** The value [float] reads from a token; [None] where it raises. *)
Definition float_value (tok : pystr) : option Q :=
  match float nd tok with
  | Ok v => Some v
  | Raise _ => None
  end.

(** The value of the first match of the temperature pattern. *)
Definition first_temperature (text : pystr) : option Q :=
  head (mtemp nd (normalized text)) ≫= float_value.

(** The value of the first match of the humidity pattern; without such a
    match, the value of the second numeric token. *)
Definition first_humidity (text : pystr) : option Q :=
  match head (mhum nd (normalized text)) with
  | Some tok => float_value tok
  | None => nums nd (normalized text) !! 1%nat ≫= float_value
  end.

(** A reading that is absent, or one read from a literal that denotes a
    number of hundredths strictly between -100 and 100. *)
Definition hundredths (o : option Q) : Prop :=
  match o with
  | None => True
  | Some v => exists n : Z, v = Qred (n # 100) /\ (-10000 < n < 10000)%Z
  end.

(** A reading that is absent, or strictly between -100 and 100. *)
Definition within_hundred (o : option Q) : Prop :=
  match o with
  | None => True
  | Some v => (-100 < v)%Q /\ (v < 100)%Q
  end.

End Reading.

(** ** More of the record store *)

(** The entry the sorter makes of the row read at position [i]. *)
Definition entry_of (i : nat) (r : photo) : entry :=
  {| key := taken_at r; sequence := i; row := r |}.

(** Every row read so far is in the index, or the index is full and the
    row sorts after all of its entries. *)
Definition sorter_covers (done : list photo) (st : sorter) : Prop :=
  forall i r, done !! i = Some r ->
    (exists e, e ∈ index st /\ sequence e = i) \/
    (counter st = O /\
     Forall (fun e => entry_lt_desc e (entry_of i r) = true) (index st)).

(** A record with the identifier the table gives it. *)
Definition with_id (i : Z) (r : photo) : photo :=
  {| photo_id := i;
     taken_at := taken_at r;
     filename := filename r;
     sha256 := sha256 r;
     width := width r;
     height := height r;
     exif_json := exif_json r;
     ocr_temp_c := ocr_temp_c r;
     ocr_humidity := ocr_humidity r;
     device_model := device_model r |}.

(** The point of the series a row gives. *)
Definition series_point (r : photo) : pystr * option Q * option Q :=
  (taken_at r, ocr_temp_c r, ocr_humidity r).

(** [SELECT COUNT( * ) FROM photos] of [__diag]. *)
Definition count_photos (t : table) : nat := length (rows t).

(** ** More of the naming scheme *)

(** A lower-case hexadecimal digit. *)
Definition is_hex (c : N) : bool :=
  ((48 <=? c) && (c <=? 57)) || ((97 <=? c) && (c <=? 102)).

(** The characters of a stored name: hexadecimal digits, the underscore,
    and those of the extension. *)
Definition name_char (c : N) : bool :=
  is_hex c || (c =? 95) || (c =? 46) || (c =? 106) || (c =? 112) || (c =? 103).

(** The fields of a timestamp, from the year down to the microsecond. *)
Definition fields (d : datetime) : list N :=
  [year d; month d; day d; hour d; minute d; second d; microsecond d].

(** ** Uploads in the order of time *)

(** The texts [taken_at] of the rows grow strictly along the list. *)
Definition ascending (l : list photo) : Prop :=
  StronglySorted (fun a b => text_compare a b = Lt) (taken_at <$> l).

(** Moments of one UTC offset, each later than those before it. *)
Definition in_order_of_time (off : Z) (times : list datetime) : Prop :=
  Forall (fun d => valid_datetime d /\ utcoffset d = off) times /\
  StronglySorted (fun a b => text_compare (fields a) (fields b) = Lt) times.

(** The last [n] rows, the last one first. *)
Definition newest_first (n : nat) (l : list photo) : list photo :=
  reverse (drop (length l - n) l).

(** A record with nothing but its time. *)
Definition bare_record (taken : string) : photo :=
  {| photo_id := 0; taken_at := str taken; filename := []; sha256 := [];
     width := 0; height := 0; exif_json := None; ocr_temp_c := None;
     ocr_humidity := None; device_model := Some [] |}.

(** ** The handlers, request after request *)

(** A moment later within the second of [morning]. *)
Definition later_that_second : datetime :=
  {| year := 2025; month := 3; day := 14; hour := 9; minute := 26;
     second := 53; microsecond := 793238; utcoffset := -10800 |}.

(** [FileResponse(str(filepath), media_type=...)]: the path below
    [UPLOAD_DIR] and the media type. *)
Inductive file_response : Type :=
| FileResponse (path : pystr) (media_type : string).

Section Requests.

Context {libs : Libraries}.

(** [filepath.exists()] for [filepath = UPLOAD_DIR / filename], where
    [filename] is one path component, as the path parameter of the route
    is: a name under which a file was written is there; for any other
    name the host answers. *)
Definition path_exists (w : world) (filename : pystr) : Result bool :=
  if decide (is_Some (uploads w !! filename)) then Ok true
  else host_exists (uploads w) filename.

Definition get_image (w : world) (filename : pystr) : Result file_response :=
  found ← path_exists w filename;
  if negb found then
    Raise (HTTPException 404 "Imagem não encontrada")
  else Ok (FileResponse filename "image/jpeg").

(** [str(ExifTags.TAGS.get(k, k))] and [str(v)] after the decoding of
    [bytes], as [_exif_to_dict] computes them for an item. *)
Definition tag_name (k : Z) : pystr :=
  match TAGS !! k with
  | Some name => name
  | None => str (pretty k)
  end.

Definition value_text (v : exif_value pyobj) : pystr :=
  match v with
  | VBytes b => decode_ignore b
  | VStr s => s
  | VObj o => str_obj o
  end.

(** The items of the tag table of an image, none when it has no table. *)
Definition items_of (img : image) : list (Z * exif_value pyobj) :=
  default [] (_getexif img).

(** The uploads that pass the two checks of [upload_photo]: the declared
    content type and the decoding of the bytes. *)
Definition accepted (photo : UploadFile) : bool :=
  match content_type photo with
  | Some declared => startswith declared (str "image/")
  | None => false
  end
  && match Image_open_RGB (body photo) with
     | Ok _ => true
     | Raise _ => false
     end.

(** A request to [upload_photo]: the part, the time at which it is
    handled and what befalls its writes. *)
Record request : Type := {
  part : UploadFile;
  clock : datetime;
  mishap : faults
}.

Definition handle (w : world) (req : request) : Result response * world :=
  upload_photo w (part req) (clock req) (mishap req).

(** The requests that pass the two checks and meet no fault. *)
Definition succeeds (req : request) : bool :=
  accepted (part req)
  && is_None (read_raises (mishap req))
  && is_None (save_raises (mishap req)) && is_None (insert_raises (mishap req)).

(** The files and the table after a sequence of uploads; the handler
    runs from the reading of the clock to its response without giving
    way to another request. *)
Definition serve (w : world) (requests : list request) : world :=
  fold_left (fun w req => (handle w req).2) requests w.

End Requests.

(** An upload of [ppm_a] without mishap. *)
Definition sample_request (content_type : string) (now : datetime) : request :=
  {| part := sample_upload content_type; clock := now; mishap := no_faults |}.

(** * Properties *)

(** ** The matcher and the language of a pattern *)

Section Matcher.

Implicit Types (r a b : regex) (s t w : pystr) (g : option pystr).

Lemma star_sound p s w t :
  (w, t) ∈ star p s -> s = w ++ t /\ Forall (fun c => p c = true) w.
Proof.
  revert w t. induction s as [|c s IH]; intros w t; simpl.
  - rewrite list_elem_of_singleton. intros [= -> ->]. by split.
  - destruct (p c) eqn:Hc.
    + rewrite elem_of_app, list_elem_of_fmap, list_elem_of_singleton.
      intros [([w' t'] & [= -> ->] & Hin) | [= -> ->]]; [|by split].
      destruct (IH _ _ Hin) as [-> Hall]. split; [done|]. by constructor.
    + rewrite list_elem_of_singleton. intros [= -> ->]. by split.
Qed.

Lemma star_complete p w t :
  Forall (fun c => p c = true) w -> (w, t) ∈ star p (w ++ t).
Proof.
  induction 1 as [|c w Hc _ IH]; simpl.
  - destruct t as [|c t]; simpl; [by apply list_elem_of_singleton|].
    destruct (p c); [apply elem_of_app; right|]; by apply list_elem_of_singleton.
  - rewrite Hc. apply elem_of_app. left.
    apply list_elem_of_fmap. by exists (w, t).
Qed.

Lemma run_Seq_inv a b s g w t g' :
  (w, t, g') ∈ run (Seq a b) s g ->
  exists w1 s1 g1 w2,
    (w1, s1, g1) ∈ run a s g /\ (w2, t, g') ∈ run b s1 g1 /\ w = w1 ++ w2.
Proof.
  simpl. rewrite list_elem_of_bind.
  intros ([[w1 s1] g1] & Hin & H1). rewrite list_elem_of_bind in Hin.
  destruct Hin as ([[w2 s2] g2] & Hin & H2).
  apply list_elem_of_singleton in Hin. injection Hin as -> -> ->.
  by exists w1, s1, g1, w2.
Qed.

Lemma run_Seq_intro a b s g w1 s1 g1 w2 t g' :
  (w1, s1, g1) ∈ run a s g -> (w2, t, g') ∈ run b s1 g1 ->
  (w1 ++ w2, t, g') ∈ run (Seq a b) s g.
Proof.
  intros H1 H2. simpl. apply list_elem_of_bind. exists (w1, s1, g1).
  split; [|done]. apply list_elem_of_bind. exists (w2, t, g').
  split; [|done]. by apply list_elem_of_singleton.
Qed.

Lemma run_Grp_inv a s g w t g' :
  (w, t, g') ∈ run (Grp a) s g ->
  g' = Some w /\ exists g'', (w, t, g'') ∈ run a s g.
Proof.
  simpl. rewrite list_elem_of_fmap.
  intros ([[w1 t1] g1] & [= -> -> ->] & Hin). split; [done|]. by exists g1.
Qed.

(** Every entry of [run] splits the input into a word of the language and
    the rest. *)
Lemma run_sound r : forall s g w t g',
  (w, t, g') ∈ run r s g -> s = w ++ t /\ lang r w.
Proof.
  induction r as [|p|a IHa b IHb|a IHa b IHb|a IHa|p|a IHa]; intros s g w t g'.
  - simpl. rewrite list_elem_of_singleton. by intros [= -> -> ->].
  - simpl. destruct s as [|c s]; [by rewrite elem_of_nil|].
    destruct (p c) eqn:Hc; [|by rewrite elem_of_nil].
    rewrite list_elem_of_singleton. intros [= -> -> ->]. split; [done|].
    by exists c.
  - intros (w1 & s1 & g1 & w2 & H1 & H2 & ->)%run_Seq_inv.
    destruct (IHa _ _ _ _ _ H1) as [-> L1].
    destruct (IHb _ _ _ _ _ H2) as [-> L2].
    split; [by rewrite <-(assoc_L (++))|]. by exists w1, w2.
  - simpl. rewrite elem_of_app. intros [H|H].
    + destruct (IHa _ _ _ _ _ H). by split; [|left].
    + destruct (IHb _ _ _ _ _ H). by split; [|right].
  - simpl. rewrite elem_of_app, list_elem_of_singleton. intros [H|[= -> -> ->]].
    + destruct (IHa _ _ _ _ _ H). by split; [|left].
    + by split; [|right].
  - simpl. rewrite list_elem_of_fmap. intros ([w1 t1] & [= -> -> ->] & H).
    by apply star_sound in H.
  - intros [-> [g'' H]]%run_Grp_inv. by apply IHa in H.
Qed.

(** Every word of the language at the head of the input is found. *)
Lemma run_complete r : forall w, lang r w ->
  forall t g, exists g', (w, t, g') ∈ run r (w ++ t) g.
Proof.
  induction r as [|p|a IHa b IHb|a IHa b IHb|a IHa|p|a IHa]; intros w Hw t g;
    simpl in Hw.
  - subst w. exists g. by apply list_elem_of_singleton.
  - destruct Hw as (c & -> & Hc). exists g. simpl. rewrite Hc.
    by apply list_elem_of_singleton.
  - destruct Hw as (u & v & -> & Hu & Hv).
    destruct (IHa _ Hu (v ++ t) g) as [g1 H1].
    destruct (IHb _ Hv t g1) as [g2 H2].
    exists g2. rewrite <-(assoc_L (++)). by eapply run_Seq_intro.
  - destruct Hw as [Hw|Hw].
    + destruct (IHa _ Hw t g) as [g' H]. exists g'. simpl. apply elem_of_app. by left.
    + destruct (IHb _ Hw t g) as [g' H]. exists g'. simpl. apply elem_of_app. by right.
  - destruct Hw as [Hw| ->].
    + destruct (IHa _ Hw t g) as [g' H]. exists g'. simpl. apply elem_of_app. by left.
    + exists g. simpl. apply elem_of_app. right. by apply list_elem_of_singleton.
  - exists g. simpl. apply list_elem_of_fmap. exists (w, t). split; [done|].
    by apply star_complete.
  - destruct (IHa _ Hw t g) as [g' H]. exists (Some w). simpl.
    apply list_elem_of_fmap. by exists (w, t, g').
Qed.

(** A pattern without group leaves group 1 as it was. *)
Lemma run_groupless r : groupless r -> forall s g w t g',
  (w, t, g') ∈ run r s g -> g' = g.
Proof.
  induction r as [|p|a IHa b IHb|a IHa b IHb|a IHa|p|a IHa];
    simpl; intros Hr s g w t g'.
  - rewrite list_elem_of_singleton. by intros [= -> -> ->].
  - destruct s as [|c s]; [by rewrite elem_of_nil|].
    destruct (p c); [|by rewrite elem_of_nil].
    rewrite list_elem_of_singleton. by intros [= -> -> ->].
  - destruct Hr as [Ha Hb].
    intros (w1 & s1 & g1 & w2 & H1 & H2 & ->)%(run_Seq_inv a b).
    apply (IHa Ha) in H1. apply (IHb Hb) in H2. congruence.
  - destruct Hr as [Ha Hb]. rewrite elem_of_app. intros [H|H]; eauto.
  - rewrite elem_of_app, list_elem_of_singleton. intros [H|[= -> -> ->]]; eauto.
  - rewrite list_elem_of_fmap. by intros ([w1 t1] & [= -> -> ->] & H).
  - done.
Qed.

Lemma run_nil_no_word r s g :
  run r s g = [] -> forall w t, s = w ++ t -> ~ lang r w.
Proof.
  intros Hnil w t -> Hw. destruct (run_complete r w Hw t g) as [g' Hin].
  rewrite Hnil in Hin. by apply elem_of_nil in Hin.
Qed.

(** *** The scan *)



(** Every match reported comes from the head of [run] at some position. *)
Lemma scan_elem r : forall s k w g,
  (w, g) ∈ scan r k s -> exists s' t l, run r s' None = (w, t, g) :: l.
Proof.
  induction s as [|c s IH]; intros k w g; simpl; [by rewrite elem_of_nil|].
  destruct k as [|k]; [|by apply IH].
  destruct (run r (c :: s) None) as [|[[w1 t1] g1] l] eqn:Hrun; [by apply IH|].
  rewrite elem_of_cons. intros [[= -> ->]|H]; [|by eapply IH].
  by exists (c :: s), t1, l.
Qed.

(** The first match reported is at the leftmost position where the
    pattern matches at all. *)
Lemma scan_head r : forall s w g l,
  scan r 0 s = (w, g) :: l ->
  exists pre t l',
    s = pre ++ w ++ t /\ run r (w ++ t) None = (w, t, g) :: l' /\
    forall pre' t', s = pre' ++ t' -> (length pre' < length pre)%nat ->
      run r t' None = [].
Proof.
  induction s as [|c s IH]; intros w g l; simpl; [done|].
  destruct (run r (c :: s) None) as [|[[w1 t1] g1] l1] eqn:Hrun.
  - intros (pre & t & l' & -> & Hr & Hleft)%IH.
    exists (c :: pre), t, l'. split; [done|]. split; [done|].
    intros [|c' pre'] t' Heq Hlen; simpl in *.
    + by subst t'.
    + injection Heq as -> Heq. apply (Hleft pre'); [done|lia].
  - intros [= -> -> _].
    assert (Hs : c :: s = w ++ t1).
    { eapply run_sound. rewrite Hrun. by left. }
    exists [], t1, l1. simpl. rewrite <-Hs. split; [done|]. split; [done|].
    intros pre' t' _ Hlen. lia.
Qed.

Lemma scan_nil r : forall s,
  scan r 0 s = [] ->
  forall pre c t, s = pre ++ c :: t -> run r (c :: t) None = [].
Proof.
  induction s as [|c s IH]; intros Hnil pre c' t Heq.
  - by destruct pre.
  - simpl in Hnil.
    destruct (run r (c :: s) None) as [|[[w1 t1] g1] l1] eqn:Hrun; [|done].
    destruct pre as [|c0 pre]; simpl in Heq.
    + by injection Heq as -> ->.
    + injection Heq as -> Heq. by eapply IH.
Qed.

End Matcher.

(** ** The tokens of the parser *)

Section Parser.

Variable nd : N -> option N.

Implicit Types (s t w text : pystr).

Lemma is_digit_decimal c : is_digit nd c = true <-> exists d, decimal nd c = Some d.
Proof. unfold is_digit. rewrite bool_decide_eq_true. reflexivity. Qed.

Lemma is_digit_range c : is_digit nd c = true -> 48 <= c <= 57 \/ 128 <= c.
Proof.
  intros [d Hd]%is_digit_decimal. unfold decimal in Hd.
  destruct (N.leb_spec 48 c), (N.leb_spec c 57), (N.ltb_spec c 128);
    simpl in Hd; try discriminate; lia.
Qed.

Lemma is_digit_neq c k : k < 48 -> is_digit nd c = true -> (c =? k) = false.
Proof. intros Hk [|]%is_digit_range; apply N.eqb_neq; lia. Qed.

Lemma not_digit_below c : c < 48 -> is_digit nd c = false.
Proof.
  intros Hc. destruct (is_digit nd c) eqn:H; [|done].
  apply is_digit_range in H. lia.
Qed.

(** *** The language of the number patterns *)

Lemma lang_digits12 w : lang (Repeat 1 2 (digit nd)) w <-> digits12 nd w.
Proof.
  unfold digits12. simpl. split.
  - intros (u & v & -> & (c & -> & Hc) & [(u' & v' & -> & (c' & -> & Hc') & ->)| ->]);
      simpl; split; try lia; repeat constructor; done.
  - intros [Hall Hlen]. destruct w as [|c [|c' [|? ?]]]; simpl in Hlen; try lia.
    + inversion_clear Hall. exists [c], []. split; [done|]. split; [by exists c|by right].
    + inversion_clear Hall as [|?? Hc Hall']. inversion_clear Hall' as [|?? Hc' _].
      exists [c], [c']. split; [done|]. split; [by exists c|]. left.
      exists [c'], []. split; [done|]. split; [by exists c'|done].
Qed.

Lemma lang_number w : lang (number_re nd) w <-> number_token nd w.
Proof.
  unfold number_re, number_token. change (lang (Seq ?a ?b) w) with
    (exists u v, w = u ++ v /\ lang a u /\ lang b v). split.
  - intros (u & v & -> & Hu%lang_digits12 & Hv). exists u. split; [done|].
    destruct Hv as [(p & fp & -> & (c & -> & Hc) & Hfp%lang_digits12)| ->].
    + apply N.eqb_eq in Hc as <-. right. by exists fp.
    + left. by rewrite app_nil_r.
  - intros (ip & Hip%lang_digits12 & [->|(fp & Hfp%lang_digits12 & ->)]).
    + exists ip, []. split; [by rewrite app_nil_r|]. split; [done|by right].
    + exists ip, ([46] ++ fp). split; [done|]. split; [done|]. left.
      exists [46], fp. split; [done|]. split; [by exists 46|done].
Qed.

Lemma lang_signed w : lang (signed_re nd) w <-> signed_token nd w.
Proof.
  unfold signed_re, signed_token. change (lang (Seq ?a ?b) w) with
    (exists u v, w = u ++ v /\ lang a u /\ lang b v). split.
  - intros (u & v & -> & [(c & -> & Hc)| ->] & Hv%lang_number).
    + apply N.eqb_eq in Hc as <-. right. by exists v.
    + by left.
  - intros [Hw%lang_number|(n & Hn%lang_number & ->)].
    + exists [], w. split; [done|]. split; [by right|done].
    + exists [45], n. split; [done|]. split; [left; by exists 45|done].
Qed.

Lemma number_token_signed w : number_token nd w -> signed_token nd w.
Proof. by left. Qed.

Lemma number_token_head w :
  number_token nd w -> exists c w', w = c :: w' /\ is_digit nd c = true.
Proof.
  intros (ip & [Hall Hlen] & Hw). destruct ip as [|c ip]; [simpl in Hlen; lia|].
  inversion_clear Hall. destruct Hw as [->|(fp & _ & ->)]; by eexists _, _.
Qed.


(** *** [float] accepts every token *)

Lemma read_digits_run ip rest :
  Forall (fun c => is_digit nd c = true) ip ->
  match rest with c :: _ => is_digit nd c = false | [] => True end ->
  exists vs, read_digits nd (ip ++ rest) = (vs, rest) /\ length vs = length ip.
Proof.
  intros Hall Hrest. induction Hall as [|c ip Hc _ (vs & IH & Hlen)]; simpl.
  - exists []. split; [|done]. destruct rest as [|c rest]; [done|]. simpl.
    destruct (decimal nd c) eqn:Hd; [|done].
    assert (is_digit nd c = true) by (apply is_digit_decimal; eauto). congruence.
  - apply is_digit_decimal in Hc as [d Hd]. rewrite Hd, IH.
    exists (d :: vs). by rewrite <-Hlen.
Qed.

Lemma float_unsigned_token neg w :
  number_token nd w -> exists q, float_unsigned nd neg w = Ok q.
Proof.
  intros (ip & [Hip Hlen] & [->|(fp & [Hfp Hlen'] & ->)]); unfold float_unsigned.
  - destruct (read_digits_run ip [] Hip I) as (vs & Hr & Hvs).
    rewrite app_nil_r in Hr. rewrite Hr. rewrite app_nil_r.
    destruct vs as [|v vs]; [simpl in Hvs; lia|]. by eexists.
  - destruct (read_digits_run ip ([46] ++ fp) Hip) as (vs & Hr & Hvs).
    { simpl. by apply not_digit_below. }
    rewrite Hr. simpl.
    destruct (read_digits_run fp [] Hfp I) as (vs' & Hr' & Hvs').
    rewrite app_nil_r in Hr'. rewrite Hr'.
    destruct vs as [|v vs]; [simpl in Hvs; lia|]. by eexists.
Qed.

(** The [except] branches around [float] are never taken: every text the
    patterns capture is a literal [float] reads. *)
Lemma float_signed w : signed_token nd w -> exists q, float nd w = Ok q.
Proof.
  intros [Hw|(n & Hn & ->)].
  - destruct (number_token_head _ Hw) as (c & w' & -> & Hc). unfold float.
    rewrite (is_digit_neq c 45), (is_digit_neq c 43) by (done || lia).
    by apply float_unsigned_token.
  - simpl. by apply float_unsigned_token.
Qed.

(** *** What the patterns capture *)

Lemma temp_capture s w t g :
  (w, t, g) ∈ run (temp_re nd) s None -> exists x, g = Some x /\ signed_token nd x.
Proof.
  unfold temp_re.
  intros (w1 & s1 & g1 & w2 & _ & H & _)%run_Seq_inv.
  apply run_Seq_inv in H as (w3 & s3 & g3 & w4 & _ & H & _).
  apply run_Seq_inv in H as (w5 & s5 & g5 & w6 & _ & H & _).
  apply run_Seq_inv in H as (w7 & s7 & g7 & w8 & _ & H & _).
  apply run_Grp_inv in H as [-> [g' H]]. apply run_sound in H as [_ H].
  exists w8. split; [done|]. by apply lang_signed.
Qed.

Lemma hum_capture s w t g :
  (w, t, g) ∈ run (hum_re nd) s None ->
  exists x ws, g = Some x /\ number_token nd x /\
    Forall (fun c => is_space c = true) ws /\ w = x ++ ws ++ [37].
Proof.
  unfold hum_re.
  intros (w1 & s1 & g1 & w2 & H1 & H2 & ->)%run_Seq_inv.
  apply run_Grp_inv in H1 as [-> [g' H1]]. apply run_sound in H1 as [_ H1].
  assert (g = Some w1) as ->.
  { eapply (run_groupless (Seq (Star is_space) (chr 37))); [by split|done]. }
  apply run_sound in H2 as [_ (ws & p & -> & Hws & (c & -> & Hc))].
  apply N.eqb_eq in Hc as <-. exists w1, ws. repeat split; try done.
  by apply lang_number.
Qed.

Lemma lang_temp_signed w : lang (signed_re nd) w -> lang (temp_re nd) w.
Proof.
  intros Hw. exists [], w. split; [done|]. split; [by right|].
  exists [], w. split; [done|]. split; [by constructor|].
  exists [], w. split; [done|]. split; [by right|].
  exists [], w. split; [done|]. split; [by constructor|done].
Qed.

Lemma lang_hum w :
  lang (hum_re nd) w <->
  exists x ws, number_token nd x /\ Forall (fun c => is_space c = true) ws /\
    w = x ++ ws ++ [37].
Proof.
  split.
  - intros (x & v & -> & Hx%lang_number & (ws & p & -> & Hws & (c & -> & Hc))).
    apply N.eqb_eq in Hc as <-. by exists x, ws.
  - intros (x & ws & Hx%lang_number & Hws & ->).
    exists x, (ws ++ [37]). split; [done|]. split; [done|].
    exists ws, [37]. split; [done|]. split; [done|]. by exists 37.
Qed.


(** Where the text has a number, the temperature pattern matches: all
    that stands before its group is optional. *)
Lemma run_temp_number x t :
  number_token nd x -> run (temp_re nd) (x ++ t) None <> [].
Proof.
  intros Hx%number_token_signed%lang_signed%lang_temp_signed.
  destruct (run_complete _ _ Hx t None) as [g Hin]. intros Hnil.
  rewrite Hnil in Hin. by apply elem_of_nil in Hin.
Qed.

Lemma run_not_nil_word r u :
  run r u None <> [] -> exists w t, u = w ++ t /\ lang r w.
Proof.
  destruct (run r u None) as [|[[w t] g] l] eqn:Hrun; [done|]. intros _.
  exists w, t. eapply run_sound. rewrite Hrun. by left.
Qed.

Lemma run_temp_of_signed u :
  run (signed_re nd) u None <> [] -> run (temp_re nd) u None <> [].
Proof.
  intros (w & t & -> & Hw%lang_temp_signed)%run_not_nil_word.
  destruct (run_complete _ _ Hw t None) as [g Hin]. intros Hnil.
  rewrite Hnil in Hin. by apply elem_of_nil in Hin.
Qed.

Lemma run_temp_of_hum u :
  run (hum_re nd) u None <> [] -> run (temp_re nd) u None <> [].
Proof.
  intros (w & t & -> & (x & ws & Hx & _ & ->)%lang_hum)%run_not_nil_word.
  rewrite <-(assoc_L (++)). by apply run_temp_number.
Qed.

Lemma scan_nil_mono r1 r2 :
  (forall u, run r2 u None <> [] -> run r1 u None <> []) ->
  forall s, scan r1 0 s = [] -> scan r2 0 s = [].
Proof.
  intros Hr. induction s as [|c s IH]; [done|]. simpl.
  destruct (run r1 (c :: s) None) as [|[[w t] g] l] eqn:H1; [|done].
  intros Hs. destruct (run r2 (c :: s) None) as [|[[w t] g] l] eqn:H2; [by apply IH|].
  destruct (Hr (c :: s)); [by rewrite H2|done].
Qed.

(** A text in which the temperature pattern finds nothing has no match of
    the humidity pattern and no numeric token. *)
Lemma mtemp_nil s : mtemp nd s = [] -> mhum nd s = [] /\ nums nd s = [].
Proof.
  unfold mtemp, mhum, nums, findall0, findall1. intros H%fmap_nil_inv. split.
  - by rewrite (scan_nil_mono _ _ run_temp_of_hum s H).
  - by rewrite (scan_nil_mono _ _ run_temp_of_signed s H).
Qed.

Lemma mtemp_tokens s x : x ∈ mtemp nd s -> signed_token nd x.
Proof.
  unfold mtemp, findall1. rewrite list_elem_of_fmap.
  intros ([w g] & -> & (s' & t & l & Hrun)%scan_elem).
  destruct (temp_capture s' w t g) as (y & -> & Hy); [|done].
  rewrite Hrun. by left.
Qed.

Lemma mhum_tokens s x : x ∈ mhum nd s -> number_token nd x.
Proof.
  unfold mhum, findall1. rewrite list_elem_of_fmap.
  intros ([w g] & -> & (s' & t & l & Hrun)%scan_elem).
  destruct (hum_capture s' w t g) as (y & ws & -> & Hy & _); [|done].
  rewrite Hrun. by left.
Qed.

Lemma nums_tokens s x : x ∈ nums nd s -> signed_token nd x.
Proof.
  unfold nums, findall0. rewrite list_elem_of_fmap.
  intros ([w g] & -> & (s' & t & l & Hrun)%scan_elem).
  apply lang_signed. eapply (run_sound _ s' None w t g). rewrite Hrun. by left.
Qed.

(** *** The assignments of [_parse_numbers] *)

Lemma try_float_spec l i var :
  (forall x, x ∈ l -> signed_token nd x) -> parsed_number nd var ->
  exists o, try_float nd l i var = Ok o /\ parsed_number nd o /\
    (is_Some (l !! i) \/ is_Some var -> is_Some o).
Proof.
  intros Hl Hvar. unfold try_float, getitem.
  destruct (l !! i) as [x|] eqn:Hx; simpl.
  - assert (Hin : x ∈ l) by (by eapply list_elem_of_lookup_2).
    destruct (float_signed x (Hl x Hin)) as [q Hq]. rewrite Hq. simpl.
    exists (Some q). split; [done|]. split; [by exists x; split; [apply Hl|]|by eexists].
  - exists var. split; [done|]. split; [done|]. by intros [[? ?]|?].
Qed.

(** An assignment under a condition keeps or sets the variable. *)
Lemma assign_spec (b : bool) l i var :
  (forall x, x ∈ l -> signed_token nd x) -> parsed_number nd var ->
  exists o, (if b then try_float nd l i var else Ok var) = Ok o /\
    parsed_number nd o /\ (is_Some var -> is_Some o) /\
    (b = true -> is_Some (l !! i) -> is_Some o).
Proof.
  intros Hl Hvar. destruct b.
  - destruct (try_float_spec l i var Hl Hvar) as (o & ? & ? & Ho).
    exists o. repeat split; auto.
  - exists var. repeat split; auto. done.
Qed.

Lemma try_float_head tok l var :
  signed_token nd tok ->
  exists v, float nd tok = Ok v /\ try_float nd (tok :: l) 0 var = Ok (Some v).
Proof.
  intros [v Hv]%float_signed. exists v. split; [done|].
  unfold try_float, getitem. simpl. by rewrite Hv.
Qed.

(** What [_parse_numbers] returns, stage by stage. *)
Lemma parse_numbers_spec text :
  exists temp hum, _parse_numbers nd text = Ok (temp, hum) /\
    parsed_number nd temp /\ parsed_number nd hum /\
    (mtemp nd (normalized text) <> [] -> is_Some temp) /\
    (mtemp nd (normalized text) = [] -> temp = None /\ hum = None) /\
    (forall tok, head (mhum nd (normalized text)) = Some tok ->
       exists v, float nd tok = Ok v /\ hum = Some v).
Proof.
  unfold _parse_numbers, normalized. cbv zeta.
  set (s := replace 44 46 text).
  destruct (mtemp nd s) as [|x l] eqn:Ht.
  { destruct (mtemp_nil s Ht) as [-> ->]. simpl. by exists None, None. }
  destruct (try_float_head x l None) as (v1 & Hv1 & ->).
  { apply (mtemp_tokens s). rewrite Ht. by left. }
  simpl.
  destruct (mhum nd s) as [|tok l'] eqn:Hh; simpl.
  - (* no percent sign: the fallback fills the humidity *)
    destruct (truthy (nums nd s)); simpl.
    + destruct (assign_spec ((2 <=? length (nums nd s))%nat && true) (nums nd s) 1 None)
        as (o3 & E3 & P3 & _ & _); [apply nums_tokens|done|].
      simpl in E3. rewrite E3. simpl.
      exists (Some v1), o3. repeat split; try done. by exists x; split;
        [apply (mtemp_tokens s); rewrite Ht; left|].
    + exists (Some v1), None. repeat split; try done. by exists x; split;
        [apply (mtemp_tokens s); rewrite Ht; left|].
  - assert (Htok : number_token nd tok).
    { apply (mhum_tokens s). rewrite Hh. by left. }
    destruct (try_float_head tok l' None) as (v2 & Hv2 & ->);
      [by apply number_token_signed|].
    simpl. exists (Some v1), (Some v2). repeat split; try done.
    + exists x. split; [|done]. apply (mtemp_tokens s). rewrite Ht. by left.
    + exists tok. split; [by apply number_token_signed|done].
    + intros ? [= <-]. by exists v2.
Qed.

(** C1: for every text [_parse_numbers] returns, without raising, a pair
    whose components are each absent or a number read from a numeric
    token: one of (None, None), (T, None), (None, H), (T, H). *)
Theorem parse_numbers_never_raises text :
  exists temp hum, _parse_numbers nd text = Ok (temp, hum) /\
    parsed_number nd temp /\ parsed_number nd hum.
Proof.
  destruct (parse_numbers_spec text) as (temp & hum & E & Pt & Ph & _).
  by exists temp, hum.
Qed.

(** C9: when [_parse_numbers] returns a humidity it returns a temperature
    too, the temperature pattern having matched: the shape (None, H) does
    not occur. *)
Theorem humidity_implies_temperature text (temp : option Q) (hum : Q) :
  _parse_numbers nd text = Ok (temp, Some hum) ->
  is_Some temp /\ mtemp nd (normalized text) <> [].
Proof.
  intros E. destruct (parse_numbers_spec text) as (t' & h' & E' & _ & _ & Hs & Hn & _).
  rewrite E in E'. injection E' as <- <-.
  destruct (mtemp nd (normalized text)) as [|x l] eqn:Ht.
  - by destruct Hn.
  - split; [by apply Hs|done].
Qed.

(** The stages of [_parse_numbers]: the patterns, then the fallback
    under its guards. *)
Lemma parse_numbers_stages text :
  _parse_numbers nd text =
    temp ← temp_by_pattern nd text;
    hum ← hum_by_pattern nd text;
    if is_None temp || is_None hum then
      let nums := nums nd (normalized text) in
      if truthy nums then
        temp ← (if is_None temp then try_float nd nums 0 temp else Ok temp);
        hum ← (if (2 <=? length nums)%nat && is_None hum
               then try_float nd nums 1 hum else Ok hum);
        Ok (temp, hum)
      else Ok (temp, hum)
    else Ok (temp, hum).
Proof.
  unfold _parse_numbers, temp_by_pattern, hum_by_pattern, normalized. cbv zeta.
  set (s := replace 44 46 text).
  destruct (if truthy (mtemp nd s) then try_float nd (mtemp nd s) 0 None else Ok None)
    as [temp|e]; [|done]. simpl.
  destruct (if truthy (mhum nd s) then try_float nd (mhum nd s) 0 None else Ok None)
    as [hum|e]; [|done]. simpl.
  destruct (is_None temp || is_None hum); [|done].
  destruct (truthy (nums nd s)); [|done].
  destruct (if is_None temp then try_float nd (nums nd s) 0 temp else Ok temp)
    as [temp'|e]; [|done]. cbn [mbind Result_bind].
  match goal with
  | |- (?X ≫= _) ≫= _ = _ => by destruct X
  end.
Qed.

(** C3, amended: on "27 55" the parser returns temperature 27 and
    humidity 55. The temperature pattern, its label being optional,
    finds the first numeric token and assigns the temperature; no
    percent sign is there for the humidity pattern, and the positional
    fallback assigns the second numeric token to the humidity. *)
Theorem parse_27_55 :
  _parse_numbers nd (str "27 55") = Ok (Some 27%Q, Some 55%Q) /\
  mtemp nd (normalized (str "27 55")) = [str "27"; str "55"] /\
  mhum nd (normalized (str "27 55")) = [] /\
  nums nd (normalized (str "27 55")) = [str "27"; str "55"] /\
  float nd (str "27") = Ok 27%Q /\ float nd (str "55") = Ok 55%Q /\
  temp_by_pattern nd (str "27 55") = Ok (Some 27%Q) /\
  hum_by_pattern nd (str "27 55") = Ok None /\
  fallback_sets_temp nd (str "27 55") = false /\
  fallback_sets_hum nd (str "27 55") = true.
Proof. repeat split; vm_compute; reflexivity. Qed.

(** *** Runs of digits *)

Local Arguments N.eqb : simpl never.
Local Arguments is_digit : simpl never.






(** *** A character that no class of the pattern takes

    A match does not reach it, and the scan of the text before it does
    not depend on what follows. *)

Local Abbreviation past t :=
  (fun m : pystr * pystr * option pystr => (m.1.1, m.1.2 ++ t, m.2)).

















(** *** The humidity pattern *)

(** C2, amended: the text the humidity pattern captures, from which the
    humidity returned is read, is a number of 1–2 digits (optional
    decimal part of 1–2 digits) followed by a percent sign with nothing
    but blanks in between, and it is the first such occurrence in the
    text. *)
Theorem humidity_is_first_percent_occurrence text tok :
  head (mhum nd (normalized text)) = Some tok ->
  (exists temp v, _parse_numbers nd text = Ok (temp, Some v) /\ float nd tok = Ok v) /\
  exists pre ws post,
    percent_occurrence nd (normalized text) pre tok ws post /\
    forall pre' tok' ws' post',
      percent_occurrence nd (normalized text) pre' tok' ws' post' ->
      (length pre <= length pre')%nat.
Proof.
  intros Hhead. split.
  { destruct (parse_numbers_spec text) as (temp & hum & E & _ & _ & _ & _ & Hh).
    destruct (Hh tok Hhead) as (v & Hv & ->). by exists temp, v. }
  revert Hhead. generalize (normalized text). intros s.
  unfold mhum, findall1.
  destruct (scan (hum_re nd) 0 s) as [|[w g] l] eqn:Hscan; [done|].
  simpl. intros [= <-].
  apply scan_head in Hscan as (pre & t & l' & -> & Hrun & Hleft).
  destruct (hum_capture (w ++ t) w t g) as (x & ws & -> & Hx & Hws & ->).
  { rewrite Hrun. by left. }
  simpl. exists pre, ws, t. split.
  - split; [|done]. by rewrite <-!(assoc_L (++)).
  - intros pre' tok' ws' post' (Heq & Htok & Hws').
    destruct (decide (length pre <= length pre')%nat) as [|Hlt]; [done|].
    exfalso. assert (Hnil : run (hum_re nd) (tok' ++ ws' ++ [37] ++ post') None = []).
    { apply (Hleft pre'); [done|lia]. }
    apply (run_nil_no_word _ _ _ Hnil (tok' ++ ws' ++ [37]) post').
    + by rewrite <-!(assoc_L (++)).
    + apply lang_hum. by exists tok', ws'.
Qed.

End Parser.

(** C2 as stated fails: in "55 %" a blank stands between the number and
    the percent sign, no number is immediately followed by a percent
    sign, and yet the humidity pattern captures 55. *)
Lemma humidity_percent_after_blank :
  (forall nd, head (mhum nd (normalized (str "55 %"))) = Some (str "55")) /\
  (forall nd, _parse_numbers nd (str "55 %") = Ok (Some 55%Q, Some 55%Q)) /\
  (forall nd, ~ exists pre tok post,
     normalized (str "55 %") = pre ++ tok ++ [37] ++ post /\ number_token nd tok).
Proof.
  split; [intros nd; vm_compute; reflexivity|].
  split; [intros nd; vm_compute; reflexivity|].
  intros nd (pre & tok & post & Heq & (ip & [Hip Hlen] & Htok)).
  assert (exists u d, tok = u ++ [d] /\ is_digit nd d = true) as (u & d & -> & Hd).
  { destruct Htok as [->|(fp & [Hfp Hlen'] & ->)].
    - destruct ip as [|a [|b [|? ?]]]; simpl in Hlen; try lia.
      + exists [], a. by inversion_clear Hip.
      + exists [a], b. inversion_clear Hip as [|?? _ Hip']. by inversion_clear Hip'.
    - destruct fp as [|a [|b [|? ?]]]; simpl in Hlen'; try lia.
      + exists (ip ++ [46]), a. rewrite <-(assoc_L (++)). by inversion_clear Hfp.
      + exists (ip ++ [46; a]), b. rewrite <-(assoc_L (++)).
        inversion_clear Hfp as [|?? _ Hfp']. by inversion_clear Hfp'. }
  change (normalized (str "55 %")) with [53; 53; 32; 37] in Heq.
  rewrite <-(assoc_L (++)), (assoc_L (++) pre) in Heq. simpl in Heq.
  destruct (pre ++ u) as [|c1 [|c2 [|c3 [|c4 w]]]]; simpl in Heq;
    try (injection Heq; intros; subst; discriminate).
  injection Heq as _ _ _ _ Heq. by destruct w.
Qed.

Lemma humidity_is_first_percent_occurrence_witness :
  head (mhum sample_decimal (normalized (str "hum 61 % 7%"))) = Some (str "61") /\
  (exists temp v, _parse_numbers sample_decimal (str "hum 61 % 7%") = Ok (temp, Some v) /\
     float sample_decimal (str "61") = Ok v) /\
  exists pre ws post,
    percent_occurrence sample_decimal (normalized (str "hum 61 % 7%")) pre (str "61") ws post /\
    forall pre' tok' ws' post',
      percent_occurrence sample_decimal (normalized (str "hum 61 % 7%")) pre' tok' ws' post' ->
      (length pre <= length pre')%nat.
Proof.
  split; [vm_compute; reflexivity|].
  apply (humidity_is_first_percent_occurrence sample_decimal).
  vm_compute; reflexivity.
Defined.

Lemma humidity_implies_temperature_witness :
  _parse_numbers sample_decimal (str "27 55") = Ok (Some 27%Q, Some 55%Q) /\
  is_Some (Some 27%Q) /\ mtemp sample_decimal (normalized (str "27 55")) <> [].
Proof.
  split; [vm_compute; reflexivity|].
  apply (humidity_implies_temperature sample_decimal (str "27 55") (Some 27%Q) 55%Q).
  vm_compute; reflexivity.
Defined.


(** C3 as stated fails: on "27 55" the temperature is set by the
    temperature pattern, and the guard of the fallback for the
    temperature is false. *)
Lemma fallback_leaves_temperature :
  temp_by_pattern sample_decimal (str "27 55") = Ok (Some 27%Q) /\
  fallback_sets_temp sample_decimal (str "27 55") = false.
Proof. split; vm_compute; reflexivity. Qed.


(** ** The names of stored images *)

Lemma zdec_length width n : length (zdec width n) = width.
Proof.
  revert n. induction width as [|w IH]; intros n; simpl; [done|].
  rewrite length_app, IH. simpl. lia.
Qed.

Lemma zdec_inj width n m :
  n < 10 ^ N.of_nat width -> m < 10 ^ N.of_nat width ->
  zdec width n = zdec width m -> n = m.
Proof.
  revert n m. induction width as [|w IH]; intros n m Hn Hm.
  - simpl in *. lia.
  - rewrite Nat2N.inj_succ, N.pow_succ_r' in Hn, Hm. simpl.
    intros [Hq Hr]%app_inj_2; [|done]. injection Hr as Hr.
    apply IH in Hq.
    + rewrite (N.div_mod n 10), (N.div_mod m 10) by done. lia.
    + apply N.Div0.div_lt_upper_bound. lia.
    + apply N.Div0.div_lt_upper_bound. lia.
Qed.

Lemma strftime_length d : length (strftime d) = 15%nat.
Proof. unfold strftime. by rewrite !length_app, !zdec_length. Qed.

(** Within the ranges of its fields, a timestamp is read back from its
    formatted text up to the second. *)
Lemma strftime_inj d1 d2 :
  valid_datetime d1 -> valid_datetime d2 ->
  strftime d1 = strftime d2 -> to_second d1 = to_second d2.
Proof.
  intros (Hy1 & Hm1 & Hd1 & Hh1 & Hmi1 & Hs1 & _) (Hy2 & Hm2 & Hd2 & Hh2 & Hmi2 & Hs2 & _).
  unfold strftime, to_second.
  intros [Hy H]%app_inj_1; [|by rewrite !zdec_length].
  apply app_inj_1 in H as [Hm H]; [|by rewrite !zdec_length].
  apply app_inj_1 in H as [Hd H]; [|by rewrite !zdec_length].
  apply app_inj_1 in H as [_ H]; [|done].
  apply app_inj_1 in H as [Hh H]; [|by rewrite !zdec_length].
  apply app_inj_1 in H as [Hmi Hs]; [|by rewrite !zdec_length].
  apply zdec_inj in Hy, Hm, Hd, Hh, Hmi, Hs; simpl; try lia.
  congruence.
Qed.

Lemma hex8_length w : length (SHA256.hex8 w) = 8%nat.
Proof. done. Qed.

(** The digest has 64 hexadecimal characters. *)
Lemma content_hash_length raw : length (content_hash raw) = 64%nat.
Proof.
  unfold content_hash, SHA256.hexdigest.
  destruct (SHA256.sha256 raw) as [[[[[[[a b] c] d] e] f] g] h].
  by rewrite !length_app, !hex8_length.
Qed.

(** A stored name determines its timestamp text and its hash prefix. *)
Lemma stored_name_inj now1 raw1 now2 raw2 :
  stored_name now1 raw1 = stored_name now2 raw2 ->
  strftime now1 = strftime now2 /\
  take 8 (content_hash raw1) = take 8 (content_hash raw2).
Proof.
  unfold stored_name.
  intros [Hts H]%app_inj_1; [|by rewrite !strftime_length].
  apply app_inj_1 in H as [_ H]; [|done].
  apply app_inj_2 in H as [Hsha _]; [|done]. done.
Qed.

(** C4, amended: two uploads whose hashes differ in their first eight
    hexadecimal characters, or whose timestamps differ up to the second,
    get distinct stored names. *)
Theorem stored_names_distinct now1 raw1 now2 raw2 :
  valid_datetime now1 -> valid_datetime now2 ->
  take 8 (content_hash raw1) <> take 8 (content_hash raw2) \/
    to_second now1 <> to_second now2 ->
  stored_name now1 raw1 <> stored_name now2 raw2.
Proof.
  intros Hv1 Hv2 Hdiff [Hts Hsha]%stored_name_inj.
  destruct Hdiff as [Hdiff|Hdiff]; [done|].
  by apply Hdiff, strftime_inj.
Qed.

Lemma stored_names_distinct_witness :
  (valid_datetime morning /\ valid_datetime a_second_later /\
   (take 8 (content_hash ppm_a) <> take 8 (content_hash ppm_a) \/
    to_second morning <> to_second a_second_later)) /\
  stored_name morning ppm_a <> stored_name a_second_later ppm_a.
Proof.
  assert (Hv1 : valid_datetime morning) by (unfold valid_datetime; simpl; lia).
  assert (Hv2 : valid_datetime a_second_later) by (unfold valid_datetime; simpl; lia).
  assert (Hd : to_second morning <> to_second a_second_later) by discriminate.
  split; [by auto|].
  apply (stored_names_distinct morning ppm_a a_second_later ppm_a Hv1 Hv2). by right.
Defined.

(** C4 as stated fails: the two images have different hashes with the
    same first eight characters, and within one second they get the same
    stored name. *)
Lemma stored_name_collision :
  content_hash ppm_a
    = str "e2935cd4ec77fad1890947623f71086db6b6d2c6a31a8f1f1be5dc1a8f211f6c" /\
  content_hash ppm_b
    = str "e2935cd4c49c35d7306119336f9dec9ec863d65e94f1e048d7d374b03fcebbb7" /\
  content_hash ppm_a <> content_hash ppm_b /\
  stored_name morning ppm_a = stored_name morning ppm_b /\
  stored_name morning ppm_a = str "20250314_092653_e2935cd4.jpg".
Proof.
  assert (Ha : content_hash ppm_a
    = str "e2935cd4ec77fad1890947623f71086db6b6d2c6a31a8f1f1be5dc1a8f211f6c")
    by (vm_compute; reflexivity).
  assert (Hb : content_hash ppm_b
    = str "e2935cd4c49c35d7306119336f9dec9ec863d65e94f1e048d7d374b03fcebbb7")
    by (vm_compute; reflexivity).
  split; [done|]. split; [done|]. split.
  - rewrite Ha, Hb. discriminate.
  - unfold stored_name. rewrite Ha, Hb. split; vm_compute; reflexivity.
Qed.

(** ** The record store *)

Section RecordStore.

Local Abbreviation before := (fun e1 e2 => entry_lt_desc e1 e2 = true).

Lemma text_compare_refl a : text_compare a a = Eq.
Proof. induction a as [|x a IH]; simpl; [done|]. by rewrite N.compare_refl. Qed.

Lemma text_compare_eq a b : text_compare a b = Eq -> a = b.
Proof.
  revert b. induction a as [|x a IH]; intros [|y b]; simpl; try done.
  destruct (N.compare_spec x y) as [->| |]; try done.
  by intros ->%IH.
Qed.

Lemma text_compare_antisym a b :
  text_compare b a = CompOpp (text_compare a b).
Proof.
  revert b. induction a as [|x a IH]; intros [|y b]; simpl; try done.
  rewrite (N.compare_antisym x y).
  destruct (x ?= y); simpl; [apply IH|done|done].
Qed.

Lemma text_compare_Gt_trans a b c :
  text_compare a b = Gt -> text_compare b c = Gt -> text_compare a c = Gt.
Proof.
  revert b c. induction a as [|x a IH]; intros [|y b] [|z c]; simpl; try done.
  destruct (N.compare_spec x y) as [->| |Hxy]; try done.
  - destruct (y ?= z); try done. apply IH.
  - intros _. destruct (N.compare_spec y z) as [->| |Hyz]; try done.
    + intros _. by apply N.compare_gt_iff in Hxy as ->.
    + intros _. assert ((x ?= z) = Gt) as -> by (apply N.compare_gt_iff; lia). done.
Qed.

Lemma entry_lt_desc_trans e1 e2 e3 :
  before e1 e2 -> before e2 e3 -> before e1 e3.
Proof.
  unfold entry_lt_desc.
  destruct (text_compare (key e1) (key e2)) eqn:H12; try done;
    destruct (text_compare (key e2) (key e3)) eqn:H23; try done.
  - apply text_compare_eq in H12, H23. rewrite H12, H23, text_compare_refl.
    intros ?%Nat.ltb_lt ?%Nat.ltb_lt. apply Nat.ltb_lt. lia.
  - apply text_compare_eq in H12. by rewrite H12, H23.
  - apply text_compare_eq in H23. by rewrite <-H23, H12.
  - by rewrite (text_compare_Gt_trans _ _ _ H12 H23).
Qed.

Lemma entry_lt_desc_total e1 e2 :
  sequence e1 <> sequence e2 ->
  entry_lt_desc e1 e2 = false -> entry_lt_desc e2 e1 = true.
Proof.
  unfold entry_lt_desc. rewrite (text_compare_antisym (key e1) (key e2)).
  destruct (text_compare (key e1) (key e2)); simpl; try done.
  intros Hne ?%Nat.ltb_ge. apply Nat.ltb_lt. lia.
Qed.

Lemma idx_insert_elem lt e idx x :
  x ∈ idx_insert lt e idx <-> x = e \/ x ∈ idx.
Proof.
  induction idx as [|y idx IH]; simpl.
  - rewrite list_elem_of_singleton, elem_of_nil. tauto.
  - destruct (lt e y); rewrite !elem_of_cons; [tauto|]. rewrite IH. tauto.
Qed.

Lemma idx_insert_length lt e idx :
  length (idx_insert lt e idx) = S (length idx).
Proof.
  induction idx as [|y idx IH]; simpl; [done|].
  destruct (lt e y); simpl; by rewrite ?IH.
Qed.

Lemma idx_insert_sorted e idx :
  StronglySorted before idx ->
  Forall (fun x => sequence x <> sequence e) idx ->
  StronglySorted before (idx_insert entry_lt_desc e idx).
Proof.
  induction 1 as [|y idx Hs IH Hy]; intros Hne; simpl.
  - repeat constructor.
  - inversion_clear Hne as [|?? Hye Hne'].
    destruct (entry_lt_desc e y) eqn:Hlt.
    + constructor; [by constructor|]. constructor; [done|].
      eapply Forall_impl; [exact Hy|]. intros z Hz. by eapply entry_lt_desc_trans.
    + constructor; [by apply IH|]. apply Forall_forall.
      intros z [->|Hz]%idx_insert_elem.
      * by apply entry_lt_desc_total.
      * by eapply Forall_forall in Hy.
Qed.

Lemma sorter_step_inv n done st r :
  sorter_inv n done st -> sorter_inv n (done ++ [r]) (sorter_step st r).
Proof.
  intros (Hs & Hlen & Hc & Hn & Hrows).
  set (e := {| key := taken_at r; sequence := next_sequence st; row := r |}).
  assert (He : (done ++ [r]) !! sequence e = Some (row e) /\ key e = taken_at (row e)).
  { split; [|done]. simpl. rewrite Hn. by apply list_lookup_middle. }
  assert (Hold : Forall (fun x => ((done ++ [r]) !! sequence x = Some (row x) /\
                                   key x = taken_at (row x)) /\
                                  sequence x <> sequence e) (index st)).
  { eapply Forall_impl; [exact Hrows|]. intros x [Hx Hk].
    pose proof (lookup_lt_Some _ _ _ Hx) as Hlt. split; [split; [|done]|].
    - by apply lookup_app_l_Some.
    - simpl. lia. }
  apply Forall_and in Hold as [Hold Hne].
  assert (Hins : forall idx, StronglySorted before idx ->
    Forall (fun x => x ∈ index st) idx ->
    StronglySorted before (idx_insert entry_lt_desc e idx) /\
    Forall (fun x => (done ++ [r]) !! sequence x = Some (row x) /\
                     key x = taken_at (row x)) (idx_insert entry_lt_desc e idx)).
  { intros idx Hsi Hsub. split.
    - apply idx_insert_sorted; [done|]. eapply Forall_impl; [exact Hsub|].
      intros x Hx. by eapply Forall_forall in Hne.
    - apply Forall_forall. intros x [->|Hx]%idx_insert_elem; [done|].
      eapply Forall_forall in Hsub; [|done]. by eapply Forall_forall in Hold. }
  unfold sorter_inv, sorter_step. fold e. rewrite length_app. simpl.
  destruct (counter st) as [|c] eqn:Hcnt.
  - (* the limit is met *)
    assert (Hn' : next_sequence st = length done) by done.
    destruct (last (index st)) as [l|] eqn:Hlast.
    + apply last_Some in Hlast as [idx' Hidx].
      destruct (text_compare (key l) (taken_at r)) eqn:Hcmp;
        try (repeat split; simpl; try done; lia).
      rewrite Hidx, removelast_last. rewrite Hidx in Hs, Hlen.
      rewrite length_app in Hlen. simpl in Hlen.
      destruct (Hins idx') as [Hs' Hr'].
      { by eapply StronglySorted_app_1_l. }
      { apply Forall_forall. intros x Hx. rewrite Hidx. apply elem_of_app. by left. }
      repeat split; simpl; try done; rewrite ?idx_insert_length; lia.
    + repeat split; simpl; try done; lia.
  - destruct (Hins (index st)) as [Hs' Hr']; [done|by apply Forall_forall|].
    repeat split; simpl; try done; rewrite ?idx_insert_length; lia.
Qed.

Lemma sorter_fold_inv n rs : forall done st,
  sorter_inv n done st ->
  sorter_inv n (done ++ rs) (fold_left sorter_step rs st).
Proof.
  induction rs as [|r rs IH]; intros done st Hinv; simpl.
  - by rewrite app_nil_r.
  - rewrite (cons_middle r), (assoc_L (++)). by apply IH, sorter_step_inv.
Qed.

Lemma sorter_init_inv n :
  sorter_inv n [] {| index := []; counter := n; next_sequence := 0 |}.
Proof. repeat split; simpl; try constructor; lia. Qed.

(** The identifiers of the rows of a table built by inserts count up
    from 1. *)
Lemma insert_photo_ids rs : forall t,
  (forall i r, rows t !! i = Some r -> photo_id r = Z.of_nat (S i)) ->
  last_rowid t = Z.of_nat (length (rows t)) ->
  forall i r, rows (fold_left insert_photo rs t) !! i = Some r ->
    photo_id r = Z.of_nat (S i).
Proof.
  induction rs as [|x rs IH]; intros t Hids Hlast; simpl; [done|].
  apply IH.
  - intros i r. simpl. intros [Hi|[Hi Hr]]%lookup_app_Some; [by apply Hids|].
    destruct (i - length (rows t))%nat as [|k] eqn:Hk; [|done].
    injection Hr as <-. simpl. rewrite Hlast. lia.
  - simpl. rewrite length_app, Hlast. simpl. lia.
Qed.

Lemma table_of_ids inserts i r :
  rows (table_of inserts) !! i = Some r -> photo_id r = Z.of_nat (S i).
Proof. apply insert_photo_ids; [by intros ? ? ?|done]. Qed.

(** What the query returns on a table built by inserts. *)
Lemma select_recent_spec n inserts :
  let result := select_recent n (table_of inserts) in
  length result = Nat.min n (length (rows (table_of inserts))) /\
  StronglySorted recent_before result /\
  Forall (fun r => r ∈ rows (table_of inserts)) result.
Proof.
  unfold select_recent. set (t := table_of inserts).
  destruct (sorter_fold_inv n (rows t) [] _ (sorter_init_inv n))
    as (Hs & Hlen & _ & _ & Hrows).
  simpl in *. set (idx := index _) in *. split; [by rewrite length_fmap|]. split.
  - clear Hlen. clearbody idx. revert Hrows.
    induction Hs as [|e idx Hs IH He]; intros Hrows; csimpl; constructor.
    + inversion_clear Hrows. by apply IH.
    + inversion_clear Hrows as [|?? [He1 He2] Hrows']. apply Forall_fmap.
      apply Forall_forall. intros y Hy. simpl.
      pose proof (proj1 (Forall_forall _ _) He y Hy) as Hlt.
      destruct (proj1 (Forall_forall _ _) Hrows' y Hy) as [Hy1 Hy2].
      unfold recent_before. rewrite <-He2, <-Hy2. simpl in Hlt.
      unfold entry_lt_desc in Hlt. revert Hlt.
      destruct (text_compare (key e) (key y)) eqn:Hcmp; [|done|by left].
      intros Hlt%Nat.ltb_lt. right. split; [by apply text_compare_eq|].
      rewrite (table_of_ids _ _ _ He1), (table_of_ids _ _ _ Hy1). lia.
  - apply Forall_fmap. eapply Forall_impl; [exact Hrows|].
    intros e [He _]. simpl. by eapply list_elem_of_lookup_2.
Qed.

(** C5: the "most recent" table of the dashboard has at most 20 rows,
    in descending order of [taken_at], rows with equal [taken_at] in the
    order of their insertion (ascending identifier). *)
Theorem most_recent_rows inserts :
  let result := (dashboard (table_of inserts)).2 in
  (length result <= 20)%nat /\
  StronglySorted recent_before result /\
  length result = Nat.min 20 (length (rows (table_of inserts))) /\
  Forall (fun r => r ∈ rows (table_of inserts)) result.
Proof.
  destruct (select_recent_spec 20 inserts) as (Hlen & Hs & Hin).
  simpl. repeat split; try done. lia.
Qed.

End RecordStore.

(** ** The upload handler *)

Section Pipeline.

Context {libs : Libraries}.

(** C6: an upload that declares no content type is not answered with the
    error 400: the guard calls [startswith] on [None] and raises
    [AttributeError]. An upload that declares a type which is no image
    type is answered with the error 400. Files and table are as they
    were in both cases. *)
Theorem upload_without_content_type w raw now env :
  upload_photo w {| content_type := None; body := raw |} now env
    = (Raise AttributeError, w) /\
  (forall declared, startswith declared (str "image/") = false ->
     upload_photo w {| content_type := Some declared; body := raw |} now env
       = (Raise (HTTPException 400 "Envie uma imagem"), w)).
Proof.
  split; [done|]. intros declared H. unfold upload_photo. simpl. by rewrite H.
Qed.

Lemma OCR_AVAILABLE_false : OCR_AVAILABLE = false.
Proof. unfold OCR_AVAILABLE. by destruct pytesseract_imported. Qed.

(** C7: [run_ocr] does not raise. As the module sets [OCR_AVAILABLE]
    it returns (None, None) for every image; and its body returns
    (None, None) when the backend is not available and when the
    transcription raises, and raises nothing once the image is
    preprocessed. *)
Theorem run_ocr_never_raises available img :
  run_ocr img = Ok (None, None) /\
  (available = false -> run_ocr_body available img = Ok (None, None)) /\
  (forall gray bw,
     convert_L img = Ok gray ->
     point (fun x => if 150 <? x then 255 else 0) gray = Ok bw ->
     (exists r, run_ocr_body available img = Ok r) /\
     ((exists e, image_to_string bw = Raise e) ->
      run_ocr_body available img = Ok (None, None))).
Proof.
  split; [|split].
  - unfold run_ocr, run_ocr_body. by rewrite OCR_AVAILABLE_false.
  - by intros ->.
  - intros gray bw Hgray Hbw. unfold run_ocr_body.
    destruct available; simpl; [|split; [by eexists|done]].
    rewrite Hgray. simpl. rewrite Hbw. simpl. split.
    + destruct (image_to_string bw) as [text|e]; [|by eexists].
      destruct (parse_numbers_spec unicode_decimal text) as (t & h & E & _).
      by eexists.
    + by intros [e ->].
Qed.

Lemma or_spec a b :
  or_ a b = match a with Some (c :: m) => Some (c :: m) | _ => b end.
Proof. by destruct a as [[|c m]|]. Qed.



End Pipeline.

Lemma run_ocr_never_raises_witness :
  (exists e, image_to_string (Libraries := test_bench) tt = Raise e) /\
  run_ocr_body (libs := test_bench) true canon_no_model = Ok (None, None).
Proof.
  split; [by eexists|].
  apply (run_ocr_never_raises (libs := test_bench) true canon_no_model) with tt tt;
    [done|done|by eexists].
Defined.


(** ** The parser in closed form *)

Section Reading.

Variable nd : N -> option N.

Lemma try_float_second a tok l var :
  signed_token nd tok ->
  exists v, float nd tok = Ok v /\ try_float nd (a :: tok :: l) 1 var = Ok (Some v).
Proof.
  intros [v Hv]%float_signed. exists v. split; [done|].
  unfold try_float, getitem. simpl. by rewrite Hv.
Qed.

(** X1: [_parse_numbers] never takes an [except] branch and its fallback
    never supplies the temperature: the temperature is the value of the
    first match of the temperature pattern, the humidity that of the
    first match of the humidity pattern or else of the second numeric
    token. *)
Theorem parse_numbers_closed_form text :
  _parse_numbers nd text = Ok (first_temperature nd text, first_humidity nd text).
Proof.
  unfold first_temperature, first_humidity, _parse_numbers, normalized. cbv zeta.
  set (s := replace 44 46 text).
  destruct (mtemp nd s) as [|x l] eqn:Ht.
  { destruct (mtemp_nil nd s Ht) as [-> ->]. done. }
  destruct (try_float_head nd x l None) as (v1 & Hv1 & ->).
  { apply (mtemp_tokens nd s). rewrite Ht. by left. }
  simpl. unfold float_value at 1. rewrite Hv1.
  destruct (mhum nd s) as [|tok l'] eqn:Hh; simpl.
  - destruct (nums nd s) as [|a [|b l'']] eqn:Hn; simpl; try done.
    destruct (try_float_second a b l'' None) as (v & Hv & ->).
    { apply (nums_tokens nd s). rewrite Hn. right. by left. }
    simpl. unfold float_value. by rewrite Hv.
  - destruct (try_float_head nd tok l' None) as (v2 & Hv2 & ->).
    { apply number_token_signed, (mhum_tokens nd s). rewrite Hh. by left. }
    simpl. unfold float_value. by rewrite Hv2.
Qed.

Lemma normalized_digits text :
  Exists (fun c => is_digit nd c = true) (normalized text) <->
  Exists (fun c => is_digit nd c = true) text.
Proof.
  unfold normalized, replace. rewrite Exists_fmap.
  split; intros H; (eapply Exists_impl; [exact H|]); intros c; simpl.
  - destruct (N.eqb_spec c 44) as [->|_]; [|done].
    by rewrite (not_digit_below nd 46).
  - intros Hc. by rewrite (is_digit_neq nd c 44).
Qed.

Lemma number_token_digits x :
  number_token nd x -> Exists (fun c => is_digit nd c = true) x.
Proof. intros (c & w & -> & Hc)%number_token_head. by left. Qed.

Lemma mtemp_digit s :
  mtemp nd s <> [] <-> Exists (fun c => is_digit nd c = true) s.
Proof.
  unfold mtemp, findall1. split.
  - destruct (scan (temp_re nd) 0 s) as [|[w g] l] eqn:Hscan; [done|]. intros _.
    apply scan_head in Hscan as (pre & t & l' & -> & Hrun & _).
    assert (Hin : (w, t, g) ∈ run (temp_re nd) (w ++ t) None) by (rewrite Hrun; by left).
    apply run_sound in Hin as [_ Hw].
    destruct Hw as (u1 & v1 & -> & _ & u2 & v2 & -> & _ & u3 & v3 & -> & _
                    & u4 & x & -> & _ & Hx%lang_signed).
    rewrite !Exists_app. right. left. right. right. right. right.
    destruct Hx as [Hx|(n & Hn & ->)].
    + by apply number_token_digits.
    + right. by apply number_token_digits.
  - intros (c & (pre & t & ->)%list_elem_of_split & Hc)%Exists_exists.
    intros Hnil%fmap_nil_inv.
    apply (run_temp_number nd [c] t).
    + exists [c]. split; [|by left]. split; [by repeat constructor|simpl; lia].
    + by eapply scan_nil.
Qed.

(** X2: [_parse_numbers] returns a temperature exactly for the texts
    that hold a decimal digit; for the others it returns (None, None). *)
Theorem temperature_iff_digit text :
  ((exists v hum, _parse_numbers nd text = Ok (Some v, hum)) <->
   Exists (fun c => is_digit nd c = true) text) /\
  (~ Exists (fun c => is_digit nd c = true) text ->
   _parse_numbers nd text = Ok (None, None)).
Proof.
  rewrite <-normalized_digits, <-mtemp_digit.
  destruct (parse_numbers_spec nd text) as (temp & hum & E & _ & _ & Hs & Hn & _).
  rewrite E. split; [split|].
  - intros (v & hum' & [= -> ->]) Hnil. by destruct (Hn Hnil).
  - intros [v ->]%Hs. by exists v, hum.
  - intros Hnil. destruct (Hn) as [-> ->]; [|done].
    destruct (mtemp nd (normalized text)); [done|]. by destruct Hnil.
Qed.

(** *** The range of the values *)

Lemma decimal_small c d : decimal nd c = Some d -> d < 10.
Proof.
  unfold decimal.
  destruct (N.leb_spec 48 c), (N.leb_spec c 57); simpl; try (intros [= <-]; lia);
    (destruct (c <? 128); [done|]);
    (destruct (nd c) as [d'|]; simpl; [|done]); intros [= <-];
    by apply N.mod_lt.
Qed.

Lemma read_digits_small s : Forall (fun d => d < 10) (read_digits nd s).1.
Proof.
  induction s as [|c s IH]; simpl; [constructor|].
  destruct (decimal nd c) as [d|] eqn:Hd; [|constructor].
  destruct (read_digits nd s) as [ds t]. simpl in *.
  constructor; [by eapply decimal_small|done].
Qed.

Lemma read_digits_values ip rest :
  Forall (fun c => is_digit nd c = true) ip ->
  match rest with c :: _ => is_digit nd c = false | [] => True end ->
  exists vs, read_digits nd (ip ++ rest) = (vs, rest) /\ length vs = length ip /\
    Forall (fun d => d < 10) vs.
Proof.
  intros Hip Hrest. destruct (read_digits_run nd ip rest Hip Hrest) as (vs & Hr & Hlen).
  exists vs. split; [done|]. split; [done|].
  pose proof (read_digits_small (ip ++ rest)) as Hs. by rewrite Hr in Hs.
Qed.

Lemma Qred_scale z p e :
  (Z.pos p * e = 100)%Z -> Qred (z # p) = Qred ((z * e) # 100).
Proof.
  intros He. apply Qred_complete. unfold Qeq. simpl.
  change (Z.pos 100) with 100%Z. rewrite <-He. ring.
Qed.

Ltac hundredths_of_digits :=
  eexists; split;
  [ first [ apply (Qred_scale _ 1 100) | apply (Qred_scale _ 10 10)
          | apply (Qred_scale _ 100 1) ]; reflexivity
  | repeat (match goal with H : Forall _ (_ :: _) |- _ => inversion_clear H end);
    unfold of_digits; simpl fold_left;
    match goal with |- context [if ?neg then _ else _] => destruct neg end; lia ].

Lemma float_unsigned_range neg tok v :
  number_token nd tok -> float_unsigned nd neg tok = Ok v ->
  exists n : Z, v = Qred (n # 100) /\
    (if neg then -10000 < n <= 0 else 0 <= n < 10000)%Z.
Proof.
  intros (ip & [Hip Hlen] & [->|(fp & [Hfp Hlen'] & ->)]); unfold float_unsigned.
  - destruct (read_digits_values ip [] Hip I) as (vs & Hr & Hvs & Hsmall).
    rewrite app_nil_r in Hr. rewrite Hr, app_nil_r.
    destruct vs as [|a [|b [|? ?]]]; simpl in Hvs; try lia; intros [= <-];
      hundredths_of_digits.
  - destruct (read_digits_values ip ([46] ++ fp) Hip) as (vs & Hr & Hvs & Hsmall).
    { simpl. by apply not_digit_below. }
    rewrite Hr. simpl.
    destruct (read_digits_values fp [] Hfp I) as (vs' & Hr' & Hvs' & Hsmall').
    rewrite app_nil_r in Hr'. rewrite Hr'.
    destruct vs as [|a [|b [|? ?]]]; simpl in Hvs; try lia;
      destruct vs' as [|c [|d [|? ?]]]; simpl in Hvs'; try lia; intros [= <-];
      hundredths_of_digits.
Qed.

Lemma float_range tok v :
  signed_token nd tok -> float nd tok = Ok v -> hundredths (Some v).
Proof.
  intros [Hw|(n & Hn & ->)].
  - destruct (number_token_head nd _ Hw) as (c & w' & -> & Hc). unfold float.
    rewrite (is_digit_neq nd c 45), (is_digit_neq nd c 43) by (done || lia).
    intros (n & -> & Hn)%float_unsigned_range; [|done]. exists n. split; [done|lia].
  - simpl. intros (m & -> & Hm)%float_unsigned_range; [|done]. exists m. split; [done|lia].
Qed.

Lemma hundredths_within o : hundredths o -> within_hundred o.
Proof.
  destruct o as [v|]; [|done]. intros (n & -> & Hn). simpl.
  rewrite Qred_correct. unfold Qlt. simpl. lia.
Qed.

(** X3: every value [_parse_numbers] returns lies strictly between -100
    and 100: the digit bounds of the patterns bound the readings. (The
    literal read has at most two digits before the period; rounding to
    a double keeps the value between the doubles -100 and 100.) *)
Theorem readings_in_range text :
  exists temp hum, _parse_numbers nd text = Ok (temp, hum) /\
    within_hundred temp /\ within_hundred hum.
Proof.
  destruct (parse_numbers_spec nd text) as (temp & hum & E & Pt & Ph & _).
  exists temp, hum. split; [done|].
  split; apply hundredths_within;
    [destruct temp as [v|]|destruct hum as [v|]]; try done.
  - destruct Pt as (tok & Htok & Hv). by eapply float_range.
  - destruct Ph as (tok & Htok & Hv). by eapply float_range.
Qed.

(** X4: a humidity read from the percent pattern is never negative: the
    pattern's group leaves out the sign before the number. *)
Theorem percent_humidity_not_negative text tok :
  head (mhum nd (normalized text)) = Some tok ->
  exists temp v n,
    _parse_numbers nd text = Ok (temp, Some v) /\ float nd tok = Ok v /\
    v = Qred (n # 100) /\ (0 <= n < 10000)%Z.
Proof.
  intros Hhead.
  destruct (parse_numbers_spec nd text) as (temp & hum & E & _ & _ & _ & _ & Hh).
  destruct (Hh tok Hhead) as (v & Hv & ->).
  assert (Htok : number_token nd tok).
  { apply (mhum_tokens nd (normalized text)).
    destruct (mhum nd (normalized text)); [done|]. injection Hhead as <-. by left. }
  destruct (number_token_head nd _ Htok) as (c & w' & -> & Hc).
  revert Hv. unfold float.
  rewrite (is_digit_neq nd c 45), (is_digit_neq nd c 43) by (done || lia).
  intros Hv. destruct (float_unsigned_range false _ v Htok Hv) as (n & -> & Hn).
  exists temp, (Qred (n # 100)), n. repeat split; try done; lia.
Qed.

End Reading.

Lemma percent_humidity_not_negative_witness :
  head (mhum sample_decimal (normalized (str "-5%"))) = Some (str "5") /\
  exists temp v n,
    _parse_numbers sample_decimal (str "-5%") = Ok (temp, Some v) /\
    float sample_decimal (str "5") = Ok v /\
    v = Qred (n # 100) /\ (0 <= n < 10000)%Z.
Proof.
  split; [vm_compute; reflexivity|].
  apply (percent_humidity_not_negative sample_decimal). vm_compute; reflexivity.
Defined.

(** ** More of the record store *)

Section MostRecent.

Local Abbreviation before := (fun e1 e2 => entry_lt_desc e1 e2 = true).

Lemma sorter_step_covers n done st r :
  sorter_inv n done st -> sorter_covers done st ->
  sorter_covers (done ++ [r]) (sorter_step st r).
Proof.
  intros (Hs & Hlen & Hc & Hn & Hrows) Hcov.
  set (e := entry_of (length done) r).
  assert (Hstep : forall i x, (done ++ [r]) !! i = Some x ->
            done !! i = Some x \/ (i = length done /\ x = r)).
  { intros i x [?|[Hi Hx]]%lookup_app_Some; [by left|right].
    destruct (i - length done)%nat as [|k] eqn:Hk; [|done].
    injection Hx as <-. split; [lia|done]. }
  unfold sorter_covers in Hcov |- *. unfold sorter_step. rewrite Hn.
  fold (entry_of (length done) r). fold e.
  destruct (counter st) as [|c] eqn:Hcnt; simpl.
  - (* the limit is met *)
    destruct (last (index st)) as [l|] eqn:Hlast.
    + apply last_Some in Hlast as [idx0 Hidx]. rewrite Hidx in Hs, Hrows, Hcov |- *.
      apply StronglySorted_app in Hs as (Hbefore & Hs0 & _).
      assert (Hl : done !! sequence l = Some (row l) /\ key l = taken_at (row l)).
      { apply (proj1 (Forall_forall _ _) Hrows l). apply elem_of_app. right. by left. }
      destruct Hl as [Hl1 Hl2].
      assert (Hleta : entry_of (sequence l) (row l) = l).
      { unfold entry_of. rewrite <-Hl2. by destruct l. }
      destruct (text_compare (key l) (taken_at r)) eqn:Hcmp;
        change (taken_at r) with (key e) in Hcmp.
      * (* equal keys: the new row is passed over *)
        assert (Hle : before l e).
        { unfold entry_lt_desc. rewrite Hcmp. apply Nat.ltb_lt. simpl.
          by apply lookup_lt_Some in Hl1. }
        intros i x [Hx|[-> ->]]%Hstep; [by apply Hcov|]. right. split; [done|].
        apply Forall_app. split; [|by repeat constructor].
        apply Forall_forall. intros e' He'.
        eapply entry_lt_desc_trans; [|exact Hle]. apply Hbefore; [done|by left].
      * (* the new row sorts before the last entry, which is dropped *)
        rewrite removelast_last.
        assert (Hel : before e l).
        { unfold entry_lt_desc. by rewrite (text_compare_antisym (key l) (key e)), Hcmp. }
        intros i x [Hx|[-> ->]]%Hstep.
        -- destruct (Hcov i x Hx) as [(e' & [He'|He']%elem_of_app & Hseq)|[_ Hall]].
           ++ left. exists e'. split; [|done]. apply idx_insert_elem. by right.
           ++ apply list_elem_of_singleton in He' as ->. right. split; [done|].
              subst i. rewrite Hx in Hl1. injection Hl1 as ->. rewrite Hleta.
              apply Forall_forall. intros e' [->|He']%idx_insert_elem; [done|].
              apply Hbefore; [done|by left].
           ++ right. split; [done|]. apply Forall_app in Hall as [Hall0 Hall1].
              apply Forall_forall. intros e' [->|He']%idx_insert_elem.
              ** eapply entry_lt_desc_trans; [exact Hel|]. by inversion_clear Hall1.
              ** by eapply Forall_forall in Hall0.
        -- left. exists e. split; [|done]. apply idx_insert_elem. by left.
      * (* the new row sorts after the last entry and is passed over *)
        assert (Hle : before l e).
        { unfold entry_lt_desc. by rewrite Hcmp. }
        intros i x [Hx|[-> ->]]%Hstep; [by apply Hcov|]. right. split; [done|].
        apply Forall_app. split; [|by repeat constructor].
        apply Forall_forall. intros e' He'.
        eapply entry_lt_desc_trans; [|exact Hle]. apply Hbefore; [done|by left].
    + apply last_None in Hlast. rewrite Hlast in Hcov |- *.
      intros i x [Hx|[-> ->]]%Hstep; [by apply Hcov|]. right. by split.
  - intros i x [Hx|[-> ->]]%Hstep.
    + destruct (Hcov i x Hx) as [(e' & He' & Hseq)|[? _]]; [|done].
      left. exists e'. split; [|done]. apply idx_insert_elem. by right.
    + left. exists e. split; [|done]. apply idx_insert_elem. by left.
Qed.

Lemma sorter_fold_covers n rs : forall done st,
  sorter_inv n done st -> sorter_covers done st ->
  sorter_covers (done ++ rs) (fold_left sorter_step rs st).
Proof.
  induction rs as [|r rs IH]; intros done st Hinv Hcov; simpl.
  - by rewrite app_nil_r.
  - rewrite (cons_middle r), (assoc_L (++)).
    apply IH; [by apply sorter_step_inv|by eapply sorter_step_covers].
Qed.

Lemma select_recent_covers n inserts :
  Forall (fun r =>
    r ∈ select_recent n (table_of inserts) \/
    (length (select_recent n (table_of inserts)) = n /\
     Forall (fun r' => recent_before r' r) (select_recent n (table_of inserts))))
    (rows (table_of inserts)).
Proof.
  unfold select_recent. set (t := table_of inserts).
  pose proof (sorter_fold_inv n (rows t) [] _ (sorter_init_inv n)) as Hinv.
  pose proof (sorter_fold_covers n (rows t) [] _ (sorter_init_inv n)) as Hcov.
  simpl in Hinv, Hcov. set (st := fold_left _ _ _) in *.
  assert (Hcov' : sorter_covers (rows t) st) by (apply Hcov; by intros ? ? ?).
  destruct Hinv as (_ & Hlen & Hc & _ & Hrows).
  apply Forall_forall. intros r (i & Hi)%list_elem_of_lookup_1.
  destruct (Hcov' i r Hi) as [(e & He & Hseq)|[Hzero Hall]].
  - left. apply list_elem_of_fmap. exists e. split; [|done].
    eapply Forall_forall in Hrows as [Hr _]; [|done]. congruence.
  - right. split; [rewrite length_fmap; lia|].
    apply Forall_fmap, Forall_forall. intros e He. simpl.
    eapply Forall_forall in Hall; [|done].
    eapply Forall_forall in Hrows as [Hr Hk]; [|done].
    unfold recent_before. rewrite <-Hk. revert Hall. unfold entry_lt_desc. simpl.
    destruct (text_compare (key e) (taken_at r)) eqn:Hcmp; [|done|by left].
    intros Hlt%Nat.ltb_lt. right. split; [by apply text_compare_eq|].
    rewrite (table_of_ids _ _ _ Hr), (table_of_ids _ _ _ Hi). lia.
Qed.

(** X5: the rows the query leaves out are none of the most recent: when
    a row of the table is not among the [n] rows returned, [n] rows are
    returned and each of them comes before it (later [taken_at], or the
    same and a smaller identifier). *)
Theorem select_recent_leaves_out_older n inserts :
  Forall (fun r =>
    r ∈ select_recent n (table_of inserts) \/
    (length (select_recent n (table_of inserts)) = n /\
     Forall (fun r' => recent_before r' r) (select_recent n (table_of inserts))))
    (rows (table_of inserts)).
Proof. apply select_recent_covers. Qed.

Lemma table_of_snoc inserts x :
  table_of (inserts ++ [x]) = insert_photo (table_of inserts) x.
Proof. unfold table_of. by rewrite fold_left_app. Qed.

Lemma table_of_length inserts :
  length (rows (table_of inserts)) = length inserts.
Proof.
  induction inserts as [|x inserts IH] using rev_ind; [done|].
  rewrite table_of_snoc. simpl. rewrite !length_app, IH. done.
Qed.

(** X6: the table after a sequence of inserts holds the records in the
    order of their insertion, each unchanged but for its identifier, and
    the identifiers count up from 1: none is given twice. *)
Theorem table_of_rows inserts :
  rows (table_of inserts) = imap (fun i r => with_id (Z.of_nat (S i)) r) inserts /\
  last_rowid (table_of inserts) = Z.of_nat (length inserts) /\
  count_photos (table_of inserts) = length inserts.
Proof.
  unfold count_photos.
  induction inserts as [|x inserts (IH1 & IH2 & IH3)] using rev_ind; [done|].
  rewrite table_of_snoc, imap_app, !length_app. simpl.
  rewrite !length_app, IH2, IH3. simpl. split; [|split; lia].
  rewrite IH1. do 2 f_equal. unfold with_id. f_equal. lia.
Qed.

(** X7: [last] of the dashboard is absent only for the empty table;
    otherwise it is the row no other row comes before: its [taken_at] is
    the latest, and of the rows with that [taken_at] it is the one
    inserted first. *)
Theorem dashboard_last inserts :
  match (dashboard (table_of inserts)).1.1 with
  | None => inserts = []
  | Some r =>
      r ∈ rows (table_of inserts) /\
      Forall (fun r' => r' = r \/ recent_before r r') (rows (table_of inserts))
  end.
Proof.
  simpl. destruct (select_recent_spec 1 inserts) as (Hlen & _ & Hin).
  pose proof (select_recent_covers 1 inserts) as Hcov.
  rewrite table_of_length in Hlen.
  assert (Hle : (length (select_recent 1 (table_of inserts)) <= 1)%nat) by lia.
  assert (Hnil : select_recent 1 (table_of inserts) = [] -> inserts = []).
  { intros Hnil. rewrite Hnil in Hlen. destruct inserts; [done|simpl in Hlen; lia]. }
  destruct (select_recent 1 (table_of inserts)) as [|r [|? ?]]; simpl in Hle |- *.
  - by apply Hnil.
  - split; [by inversion_clear Hin|].
    eapply Forall_impl; [exact Hcov|]. intros r' [Hr'|[_ Hr']].
    + left. by apply list_elem_of_singleton in Hr'.
    + right. by inversion_clear Hr'.
  - lia.
Qed.

End MostRecent.

Section Series.

Local Abbreviation earlier := (fun e1 e2 => entry_lt_asc e1 e2 = true).

Lemma text_compare_Lt_Gt a b : text_compare a b = Lt -> text_compare b a = Gt.
Proof. intros H. by rewrite text_compare_antisym, H. Qed.

Lemma text_compare_Lt_trans a b c :
  text_compare a b = Lt -> text_compare b c = Lt -> text_compare a c = Lt.
Proof.
  intros H1%text_compare_Lt_Gt H2%text_compare_Lt_Gt.
  by rewrite text_compare_antisym, (text_compare_Gt_trans _ _ _ H2 H1).
Qed.

Lemma entry_lt_asc_trans e1 e2 e3 :
  earlier e1 e2 -> earlier e2 e3 -> earlier e1 e3.
Proof.
  unfold entry_lt_asc.
  destruct (text_compare (key e1) (key e2)) eqn:H12; try done;
    destruct (text_compare (key e2) (key e3)) eqn:H23; try done.
  - apply text_compare_eq in H12, H23. rewrite H12, H23, text_compare_refl.
    intros ?%Nat.ltb_lt ?%Nat.ltb_lt. apply Nat.ltb_lt. lia.
  - apply text_compare_eq in H12. by rewrite H12, H23.
  - apply text_compare_eq in H23. by rewrite <-H23, H12.
  - by rewrite (text_compare_Lt_trans _ _ _ H12 H23).
Qed.

Lemma entry_lt_asc_total e1 e2 :
  sequence e1 <> sequence e2 ->
  entry_lt_asc e1 e2 = false -> entry_lt_asc e2 e1 = true.
Proof.
  unfold entry_lt_asc. rewrite (text_compare_antisym (key e1) (key e2)).
  destruct (text_compare (key e1) (key e2)); simpl; try done.
  intros Hne ?%Nat.ltb_ge. apply Nat.ltb_lt. lia.
Qed.

Lemma idx_insert_sorted_asc e idx :
  StronglySorted earlier idx ->
  Forall (fun x => sequence x <> sequence e) idx ->
  StronglySorted earlier (idx_insert entry_lt_asc e idx).
Proof.
  induction 1 as [|y idx Hs IH Hy]; intros Hne; simpl.
  - repeat constructor.
  - inversion_clear Hne as [|?? Hye Hne'].
    destruct (entry_lt_asc e y) eqn:Hlt.
    + constructor; [by constructor|]. constructor; [done|].
      eapply Forall_impl; [exact Hy|]. intros z Hz. by eapply entry_lt_asc_trans.
    + constructor; [by apply IH|]. apply Forall_forall.
      intros z [->|Hz]%idx_insert_elem.
      * by apply entry_lt_asc_total.
      * by eapply Forall_forall in Hy.
Qed.

Lemma idx_insert_perm lt e idx : idx_insert lt e idx ≡ₚ e :: idx.
Proof.
  induction idx as [|y idx IH]; simpl; [done|].
  destruct (lt e y); [done|]. by rewrite IH, Permutation_swap.
Qed.

Lemma series_fold rs : forall idx k,
  StronglySorted earlier idx ->
  Forall (fun e => (sequence e < k)%nat /\ key e = taken_at (row e)) idx ->
  let st := fold_left (fun st r =>
              (idx_insert entry_lt_asc
                 {| key := taken_at r; sequence := snd st; row := r |} (fst st),
               S (snd st))) rs (idx, k) in
  StronglySorted earlier st.1 /\
  Forall (fun e => key e = taken_at (row e)) st.1 /\
  row <$> st.1 ≡ₚ (row <$> idx) ++ rs.
Proof.
  induction rs as [|r rs IH]; intros idx k Hs Hall; simpl.
  - split; [done|]. split; [|by rewrite app_nil_r].
    eapply Forall_impl; [exact Hall|]. by intros e [_ ?].
  - set (e := {| key := taken_at r; sequence := k; row := r |}).
    destruct (IH (idx_insert entry_lt_asc e idx) (S k)) as (Hs' & Hk' & Hp').
    + apply idx_insert_sorted_asc; [done|].
      eapply Forall_impl; [exact Hall|]. intros x [Hx _]. simpl. lia.
    + apply Forall_forall. intros x [->|Hx]%idx_insert_elem; [simpl; split; [lia|done]|].
      eapply Forall_forall in Hall as [? ?]; [|done]. split; [lia|done].
    + split; [done|]. split; [done|].
      rewrite Hp', idx_insert_perm. simpl.
      by rewrite (cons_middle r), (assoc_L (++)), <-(Permutation_cons_append _ r).
Qed.

(** X8: the series of the dashboard holds one point for each row with a
    temperature or a humidity, and none else, in ascending order of
    [taken_at]. *)
Theorem dashboard_series t :
  let series := (dashboard t).1.2 in
  series ≡ₚ series_point <$> filter (fun r => has_reading r = true) (rows t) /\
  StronglySorted (fun p q => text_compare p.1.1 q.1.1 <> Gt) series.
Proof.
  simpl. unfold select_series.
  destruct (series_fold (filter (fun r => has_reading r = true) (rows t)) [] 0%nat)
    as (Hs & Hk & Hp); [constructor|constructor|].
  simpl in Hs, Hk, Hp. set (idx := fst _) in *. clearbody idx. split.
  - rewrite <-Hp, <-list_fmap_compose. done.
  - clear Hp. induction Hs as [|e idx Hs IH He]; csimpl; constructor.
    + inversion_clear Hk. by apply IH.
    + inversion_clear Hk as [|?? Hke Hk']. apply Forall_fmap, Forall_forall.
      intros y Hy. simpl.
      pose proof (proj1 (Forall_forall _ _) He y Hy) as Hlt.
      pose proof (proj1 (Forall_forall _ _) Hk' y Hy) as Hky.
      simpl in Hlt. unfold entry_lt_asc in Hlt. rewrite <-Hke, <-Hky.
      by destruct (text_compare (key e) (key y)).
Qed.

End Series.

(** ** More of the naming scheme *)

Lemma zdec_digits width n :
  Forall (fun c => 48 <= c <= 57) (zdec width n).
Proof.
  revert n. induction width as [|w IH]; intros n; simpl; [constructor|].
  apply Forall_app. split; [apply IH|]. constructor; [|constructor].
  assert (Hr : n mod 10 < 10) by (by apply N.mod_lt).
  revert Hr. generalize (n mod 10). intros r Hr. lia.
Qed.

Lemma hexchar_hex x : is_hex (SHA256.hexchar (N.land x 0xf)) = true.
Proof.
  assert (Hlt : N.land x 0xf < 16).
  { change 0xf with (N.ones 4). rewrite N.land_ones. by apply N.mod_lt. }
  unfold SHA256.hexchar, is_hex.
  destruct (N.ltb_spec (N.land x 0xf) 10); apply orb_true_iff; [left|right];
    apply andb_true_iff; split; apply N.leb_le; lia.
Qed.

Lemma hex8_hex w : Forall (fun c => is_hex c = true) (SHA256.hex8 w).
Proof. unfold SHA256.hex8. simpl. repeat constructor; apply hexchar_hex. Qed.

Lemma content_hash_hex raw : Forall (fun c => is_hex c = true) (content_hash raw).
Proof.
  unfold content_hash, SHA256.hexdigest.
  destruct (SHA256.sha256 raw) as [[[[[[[a b] c] d] e] f] g] h].
  rewrite !Forall_app. repeat split; apply hex8_hex.
Qed.

Lemma stored_name_chars now raw :
  Forall (fun c => name_char c = true) (stored_name now raw).
Proof.
  unfold stored_name, strftime. rewrite !Forall_app.
  assert (Hz : forall w n, Forall (fun c => name_char c = true) (zdec w n)).
  { intros w n. eapply Forall_impl; [apply zdec_digits|]. intros c Hc.
    simpl in Hc. unfold name_char, is_hex.
    assert ((48 <=? c) = true) as -> by (apply N.leb_le; lia).
    assert ((c <=? 57) = true) as -> by (apply N.leb_le; lia). done. }
  repeat split; try apply Hz; try (by repeat constructor).
  apply Forall_take. eapply Forall_impl; [apply content_hash_hex|].
  intros c Hc. unfold name_char. by rewrite Hc.
Qed.

Lemma stored_name_one_component now raw : 47 ∉ stored_name now raw.
Proof.
  intros Hin. pose proof (stored_name_chars now raw) as Hchars.
  eapply Forall_forall in Hchars; [|exact Hin]. discriminate.
Qed.

(** X9: the content hash is a text of 64 lower-case hexadecimal digits;
    the stored name has 28 characters, each a hexadecimal digit, an
    underscore or a character of the extension ".jpg" with which it ends:
    it holds no path separator and is a plain file name. *)
Theorem stored_name_is_plain now raw :
  length (content_hash raw) = 64%nat /\
  Forall (fun c => is_hex c = true) (content_hash raw) /\
  length (stored_name now raw) = 28%nat /\
  Forall (fun c => name_char c = true) (stored_name now raw) /\
  (47 ∉ stored_name now raw) /\ (92 ∉ stored_name now raw) /\
  exists stem, stored_name now raw = stem ++ str ".jpg" /\ length stem = 24%nat.
Proof.
  split; [apply content_hash_length|]. split; [apply content_hash_hex|].
  pose proof (stored_name_chars now raw) as Hchars.
  assert (Hlen : length (stored_name now raw) = 28%nat).
  { unfold stored_name. rewrite !length_app, strftime_length, length_take,
      content_hash_length. done. }
  split; [done|]. split; [done|]. split; [|split].
  - intros Hin. eapply Forall_forall in Hchars; [|exact Hin]. discriminate.
  - intros Hin. eapply Forall_forall in Hchars; [|exact Hin]. discriminate.
  - exists (strftime now ++ str "_" ++ take 8 (content_hash raw)).
    split; [unfold stored_name; by rewrite <-!(assoc_L (++))|].
    rewrite !length_app, strftime_length, length_take, content_hash_length. done.
Qed.

(** *** The order of the stored timestamps *)

Lemma text_compare_app a a' b b' :
  length a = length a' ->
  text_compare (a ++ b) (a' ++ b') =
    match text_compare a a' with
    | Eq => text_compare b b'
    | c => c
    end.
Proof.
  revert a'. induction a as [|x a IH]; intros [|y a'] Hlen; simpl in *; try done.
  destruct (x ?= y); try done. apply IH. lia.
Qed.

Lemma compare_div_mod n m :
  (n ?= m) = match n / 10 ?= m / 10 with
             | Eq => n mod 10 ?= m mod 10
             | c => c
             end.
Proof.
  pose proof (N.div_mod n 10) as Hn. pose proof (N.div_mod m 10) as Hm.
  pose proof (N.mod_lt n 10) as Hrn. pose proof (N.mod_lt m 10) as Hrm.
  revert Hn Hm Hrn Hrm.
  generalize (n / 10) (n mod 10) (m / 10) (m mod 10). intros q1 r1 q2 r2 Hn Hm Hrn Hrm.
  destruct (N.compare_spec q1 q2) as [->| |].
  - destruct (N.compare_spec r1 r2); [apply N.compare_eq_iff|apply N.compare_lt_iff
                                     |apply N.compare_gt_iff]; lia.
  - apply N.compare_lt_iff. lia.
  - apply N.compare_gt_iff. lia.
Qed.

Lemma compare_add_l p n m : (p + n ?= p + m) = (n ?= m).
Proof.
  destruct (N.compare_spec n m); [apply N.compare_eq_iff|apply N.compare_lt_iff
                                 |apply N.compare_gt_iff]; lia.
Qed.

(** Numbers of one width compare as their zero-padded texts. *)
Lemma zdec_compare width n m :
  n < 10 ^ N.of_nat width -> m < 10 ^ N.of_nat width ->
  text_compare (zdec width n) (zdec width m) = (n ?= m).
Proof.
  revert n m. induction width as [|w IH]; intros n m Hn Hm.
  - simpl in *. symmetry. apply N.compare_eq_iff. lia.
  - rewrite Nat2N.inj_succ, N.pow_succ_r' in Hn, Hm.
    cbn [zdec]. rewrite text_compare_app by (by rewrite !zdec_length).
    rewrite IH by (apply N.Div0.div_lt_upper_bound; lia).
    simpl text_compare. rewrite compare_add_l, (compare_div_mod n m).
    by destruct (n / 10 ?= m / 10), (n mod 10 ?= m mod 10).
Qed.

Lemma text_compare_field width n m c a b :
  n < 10 ^ N.of_nat width -> m < 10 ^ N.of_nat width ->
  text_compare (zdec width n ++ c :: a) (zdec width m ++ c :: b) =
    match n ?= m with
    | Eq => text_compare a b
    | o => o
    end.
Proof.
  intros Hn Hm. rewrite text_compare_app by (by rewrite !zdec_length).
  rewrite zdec_compare by done. simpl. by rewrite N.compare_refl.
Qed.

(** The fraction of a second, before a tail that starts with the sign of
    the offset: the sign sorts before the decimal point. *)
Lemma text_compare_fraction u v sign tail :
  sign < 46 -> u < 1000000 -> v < 1000000 ->
  text_compare
    ((if u =? 0 then [] else str "." ++ zdec 6 u) ++ sign :: tail)
    ((if v =? 0 then [] else str "." ++ zdec 6 v) ++ sign :: tail) = (u ?= v).
Proof.
  intros Hsign Hu Hv.
  assert (Hlt : (sign ?= 46) = Lt) by by apply N.compare_lt_iff.
  assert (Hgt : (46 ?= sign) = Gt) by by apply N.compare_gt_iff.
  destruct (N.eqb_spec u 0) as [->|Hu0], (N.eqb_spec v 0) as [->|Hv0].
  - apply text_compare_refl.
  - change (str ".") with [46]. cbn [app text_compare]. rewrite Hlt.
    symmetry. apply N.compare_lt_iff. lia.
  - change (str ".") with [46]. cbn [app text_compare]. rewrite Hgt.
    symmetry. apply N.compare_gt_iff. lia.
  - change (str ".") with [46]. cbn [app text_compare].
    simpl (46 ?= 46).
    rewrite text_compare_field by (simpl; lia).
    rewrite text_compare_refl. by destruct (u ?= v).
Qed.

Lemma isoformat_compare d1 d2 :
  valid_datetime d1 -> valid_datetime d2 -> utcoffset d1 = utcoffset d2 ->
  text_compare (isoformat d1) (isoformat d2) = text_compare (fields d1) (fields d2).
Proof.
  intros (Hy1 & Hmo1 & Hd1 & Hh1 & Hmi1 & Hs1 & Hu1)
         (Hy2 & Hmo2 & Hd2 & Hh2 & Hmi2 & Hs2 & Hu2) Hoff.
  unfold isoformat, fields. rewrite <- Hoff.
  set (tail := zdec 2 (_ / 3600) ++ _).
  change (str "-") with [45]. change (str "T") with [84].
  change (str ":") with [58]. change (str "+") with [43].
  cbn [app text_compare].
  rewrite text_compare_field by (simpl; lia).
  rewrite text_compare_field by (simpl; lia).
  rewrite text_compare_field by (simpl; lia).
  rewrite text_compare_field by (simpl; lia).
  rewrite text_compare_field by (simpl; lia).
  rewrite text_compare_app by (by rewrite !zdec_length).
  rewrite zdec_compare by (simpl; lia).
  assert (Hfrac :
    text_compare
      ((if microsecond d1 =? 0 then [] else str "." ++ zdec 6 (microsecond d1))
         ++ (if (utcoffset d1 <? 0)%Z then [45] else [43]) ++ tail)
      ((if microsecond d2 =? 0 then [] else str "." ++ zdec 6 (microsecond d2))
         ++ (if (utcoffset d1 <? 0)%Z then [45] else [43]) ++ tail)
    = (microsecond d1 ?= microsecond d2)).
  { destruct (utcoffset d1 <? 0)%Z; apply text_compare_fraction; lia. }
  rewrite Hfrac.
  by destruct (microsecond d1 ?= microsecond d2).
Qed.

(** X10: the texts stored as [taken_at] by two uploads made under one UTC
    offset compare as the moments do, field by field from the year down
    to the microsecond: the [ORDER BY taken_at] of the dashboard is then
    the order of time. *)
Theorem isoformat_order d1 d2 :
  valid_datetime d1 -> valid_datetime d2 -> utcoffset d1 = utcoffset d2 ->
  text_compare (isoformat d1) (isoformat d2) = text_compare (fields d1) (fields d2).
Proof. apply isoformat_compare. Qed.

Lemma isoformat_order_witness :
  valid_datetime morning /\ valid_datetime a_second_later /\
  utcoffset morning = utcoffset a_second_later /\
  text_compare (isoformat morning) (isoformat a_second_later)
    = text_compare (fields morning) (fields a_second_later).
Proof.
  assert (H1 : valid_datetime morning) by (unfold valid_datetime; simpl; lia).
  assert (H2 : valid_datetime a_second_later) by (unfold valid_datetime; simpl; lia).
  split; [exact H1|]. split; [exact H2|]. split; [reflexivity|].
  exact (isoformat_order morning a_second_later H1 H2 eq_refl).
Defined.

(** ** Uploads, request after request *)

Section Served.

Context {libs : Libraries}.

Lemma run_ocr_off img : run_ocr img = Ok (None, None).
Proof. unfold run_ocr, run_ocr_body. by rewrite OCR_AVAILABLE_false. Qed.

(** The ways an upload ends: at one of the two checks or the reading of
    the part, at the saving of the file, at the insert, or with the
    redirect. *)
Lemma upload_photo_cases w photo now env :
  ((accepted photo = false \/ read_raises env <> None) /\
   exists e, upload_photo w photo now env = (Raise e, w) /\
     ((content_type photo = None /\ e = AttributeError) \/
      (exists declared, content_type photo = Some declared /\
         startswith declared (str "image/") = false /\
         e = HTTPException 400 "Envie uma imagem") \/
      read_raises env = Some e \/
      Image_open_RGB (body photo) = Raise e)) \/
  (accepted photo = true /\ read_raises env = None /\
   exists img, Image_open_RGB (body photo) = Ok img /\
     ((exists e remains, save_raises env = Some (e, remains) /\
         upload_photo w photo now env =
           (Raise e,
            {| uploads := match remains with
                          | Some data =>
                              <[stored_name now (body photo) := data]> (uploads w)
                          | None => uploads w
                          end;
               photos := photos w |})) \/
      (save_raises env = None /\
       exists e, insert_raises env = Some e /\
         upload_photo w photo now env =
           (Raise e,
            {| uploads := <[stored_name now (body photo) := save_JPEG img]> (uploads w);
               photos := photos w |})) \/
      (save_raises env = None /\ insert_raises env = None /\
       exists r,
         upload_photo w photo now env =
           (Ok (RedirectResponse (str "/") 303),
            {| uploads := <[filename r := save_JPEG img]> (uploads w);
               photos := insert_photo (photos w) r |}) /\
         filename r = stored_name now (body photo) /\
         taken_at r = isoformat now /\
         sha256 r = content_hash (body photo) /\
         ocr_temp_c r = None /\ ocr_humidity r = None))).
Proof.
  unfold upload_photo, accepted.
  destruct (content_type photo) as [declared|].
  2: { left. split; [by left|]. eexists. split; [done|]. by left. }
  destruct (startswith declared (str "image/")) eqn:Hct; simpl.
  2: { left. split; [by left|]. eexists. split; [done|]. right. left.
       by exists declared. }
  destruct (read_raises env) as [e|].
  { left. split; [by right|]. exists e. split; [done|]. by right; right; left. }
  destruct (Image_open_RGB (body photo)) as [img|e].
  2: { left. split; [by left|]. exists e. split; [done|]. by right; right; right. }
  right. split; [done|]. split; [done|]. exists img. split; [done|].
  rewrite run_ocr_off.
  destruct (save_raises env) as [[e remains]|].
  { left. by exists e, remains. }
  destruct (insert_raises env) as [e|].
  { right. left. split; [done|]. by exists e. }
  right. right. split; [done|]. split; [done|].
  match goal with
  | |- context [insert_photo _ ?r] => exists r
  end.
  done.
Qed.

Lemma serve_cons w req requests :
  serve w (req :: requests) = serve (handle w req).2 requests.
Proof. done. Qed.

Lemma rows_insert_photo t r :
  rows (insert_photo t r) = rows t ++ [with_id (last_rowid t + 1) r].
Proof. done. Qed.

(** The cases of [upload_photo_cases] by [succeeds]. *)
Lemma handle_cases w req :
  (succeeds req = false /\ photos (handle w req).2 = photos w /\
   exists e, (handle w req).1 = Raise e) \/
  (succeeds req = true /\
   exists img r,
     Image_open_RGB (body (part req)) = Ok img /\
     handle w req =
       (Ok (RedirectResponse (str "/") 303),
        {| uploads := <[filename r := save_JPEG img]> (uploads w);
           photos := insert_photo (photos w) r |}) /\
     filename r = stored_name (clock req) (body (part req)) /\
     taken_at r = isoformat (clock req) /\
     sha256 r = content_hash (body (part req)) /\
     ocr_temp_c r = None /\ ocr_humidity r = None).
Proof.
  unfold handle, succeeds.
  destruct (upload_photo_cases w (part req) (clock req) (mishap req))
    as [(Hearly & e & -> & _)|(-> & -> & img & Himg &
         [(e & remains & -> & ->)|[(-> & e & -> & ->)|(-> & -> & r & -> & H)]])].
  - left. split; [|split; [done|by exists e]].
    destruct Hearly as [->|Hread]; [done|].
    destruct (read_raises (mishap req)); [|done]. by rewrite andb_false_r.
  - left. split; [done|]. split; [done|]. by exists e.
  - left. split; [done|]. split; [done|]. by exists e.
  - right. split; [done|]. by exists img, r.
Qed.

(** X11: an upload that ends in an error adds no record. The error is
    the [AttributeError] of a part without content type, the 400 of a
    declared type that is no image type, the one the reading of the part
    or the decoding raised, and files and table are then as they were;
    or it is the error of the saving; or that of the insert, and then
    the file is written and has no record. *)
Theorem failed_upload_adds_no_record w photo now env e w' :
  upload_photo w photo now env = (Raise e, w') ->
  photos w' = photos w /\
  ((w' = w /\
    ((content_type photo = None /\ e = AttributeError) \/
     (exists declared, content_type photo = Some declared /\
        startswith declared (str "image/") = false /\
        e = HTTPException 400 "Envie uma imagem") \/
     read_raises env = Some e \/
     Image_open_RGB (body photo) = Raise e)) \/
   (accepted photo = true /\ exists remains, save_raises env = Some (e, remains)) \/
   (accepted photo = true /\ save_raises env = None /\ insert_raises env = Some e /\
    exists img, Image_open_RGB (body photo) = Ok img /\
      uploads w' !! stored_name now (body photo) = Some (save_JPEG img))).
Proof.
  intros Hup.
  destruct (upload_photo_cases w photo now env)
    as [(_ & e' & Hup' & He)|(Hacc & _ & img & Himg &
         [(e' & remains & Hs & Hup')|[(Hs & e' & Hi & Hup')|(_ & _ & r & Hup' & _)]])];
    rewrite Hup' in Hup; try done; injection Hup as <- <-.
  - split; [done|]. left. by split.
  - split; [done|]. right. left. split; [done|]. by exists remains.
  - split; [done|]. right. right. repeat (split; [done|]).
    exists img. split; [done|]. apply lookup_insert_eq.
Qed.

(** X12: an upload is answered with a response exactly when it passes
    the two checks and neither the reading of the part, the saving nor
    the insert raises. The response is then the redirect 303 to the
    dashboard; one record is added, which gets the next identifier and
    carries no reading, and the file of that record is written. *)
Theorem accepted_upload_adds_one_record w photo now env :
  ((exists resp w', upload_photo w photo now env = (Ok resp, w')) <->
   accepted photo = true /\ read_raises env = None /\
   save_raises env = None /\ insert_raises env = None) /\
  (accepted photo = true -> read_raises env = None ->
   save_raises env = None -> insert_raises env = None ->
   exists img r,
     Image_open_RGB (body photo) = Ok img /\
     (upload_photo w photo now env).1 = Ok (RedirectResponse (str "/") 303) /\
     let w' := (upload_photo w photo now env).2 in
     rows (photos w') = rows (photos w) ++ [r] /\
     photo_id r = (last_rowid (photos w) + 1)%Z /\
     filename r = stored_name now (body photo) /\
     ocr_temp_c r = None /\ ocr_humidity r = None /\
     uploads w' !! filename r = Some (save_JPEG img)).
Proof.
  destruct (upload_photo_cases w photo now env)
    as [(Hearly & e' & Hup' & He)|(Hacc & Hr & img & Himg &
         [(e' & remains & Hs & Hup')|[(Hs & e' & Hi & Hup')|
          (Hs & Hi & r & Hup' & Hname & _ & _ & Htemp & Hhum)]])];
    rewrite Hup'.
  - split; [split; [by intros (? & ? & [=])|]|];
      destruct Hearly; intros; intuition congruence.
  - split; [|congruence]. split; [by intros (? & ? & [=])|]. intuition congruence.
  - split; [|congruence]. split; [by intros (? & ? & [=])|]. intuition congruence.
  - split; [split; [done|by eexists _, _]|]. intros _ _ _ _.
    exists img, (with_id (last_rowid (photos w) + 1) r).
    split; [done|]. split; [done|]. simpl.
    repeat split; try done. apply lookup_insert_eq.
Qed.

(** Rows without a reading give no point of the series. *)
Lemma select_series_no_reading t :
  Forall (fun r => has_reading r = false) (rows t) -> select_series t = [].
Proof.
  intros Hrows. unfold select_series.
  assert (Hnil : filter (fun r => has_reading r = true) (rows t) = []).
  { induction Hrows as [|r l Hr _ IH]; [done|].
    rewrite filter_cons. destruct (decide _) as [Hd|_]; [congruence|done]. }
  by rewrite Hnil.
Qed.

Lemma serve_no_reading w requests :
  Forall (fun r => has_reading r = false) (rows (photos w)) ->
  Forall (fun r => has_reading r = false) (rows (photos (serve w requests))).
Proof.
  revert w. induction requests as [|req requests IH]; intros w Hw; [done|].
  rewrite serve_cons. apply IH.
  destruct (handle_cases w req)
    as [(_ & -> & _)|(_ & img & r & _ & -> & _ & _ & _ & Htemp & Hhum)];
    [done|].
  simpl. apply Forall_app. split; [done|]. constructor; [|done].
  unfold has_reading. simpl. by rewrite Htemp, Hhum.
Qed.

(** X13: as the module is written, with the recognition switched off, no
    upload adds a point to the series of the dashboard: when the table
    holds no reading before a sequence of uploads, the series is empty
    after it. *)
Theorem served_series_is_empty w requests :
  Forall (fun r => has_reading r = false) (rows (photos w)) ->
  (dashboard (photos (serve w requests))).1.2 = [].
Proof.
  intros Hw. simpl. apply select_series_no_reading. by apply serve_no_reading.
Qed.

(** X14: [__diag] counts the uploads that were answered with the
    redirect, those that passed the two checks and met no error in the
    saving or the insert: each of them added one row, and no other did. *)
Theorem count_after_serving w requests :
  count_photos (photos (serve w requests)) =
    (count_photos (photos w)
     + length (filter (fun req => succeeds req = true) requests))%nat.
Proof.
  unfold count_photos. revert w.
  induction requests as [|req requests IH]; intros w; [simpl; lia|].
  rewrite serve_cons, IH, filter_cons.
  destruct (handle_cases w req)
    as [(Hs & -> & _)|(Hs & img & r & _ & -> & _)];
    destruct (decide _) as [Hd|Hd]; try congruence; simpl;
    rewrite ?length_app; simpl; lia.
Qed.

End Served.

(** ** The stored files *)

Section Files.

Context {libs : Libraries}.

Lemma get_image_stored w name :
  is_Some (uploads w !! name) ->
  get_image w name = Ok (FileResponse name "image/jpeg").
Proof.
  intros Hsome. unfold get_image, path_exists. by rewrite decide_True.
Qed.

Lemma upload_keeps_files w req name :
  is_Some (uploads w !! name) ->
  is_Some (uploads (handle w req).2 !! name).
Proof.
  intros Hsome. unfold handle.
  destruct (upload_photo_cases w (part req) (clock req) (mishap req))
    as [(_ & e & -> & _)|(_ & _ & img & _ &
         [(e & remains & _ & ->)|[(_ & e & _ & ->)|(_ & _ & r & -> & _)]])];
    simpl; [done| | |].
  - destruct remains; [|done]. apply lookup_insert_is_Some'. by right.
  - apply lookup_insert_is_Some'. by right.
  - apply lookup_insert_is_Some'. by right.
Qed.

Lemma serve_records_files w requests :
  Forall (fun r => (47 ∉ filename r) /\ is_Some (uploads w !! filename r))
    (rows (photos w)) ->
  Forall (fun r => (47 ∉ filename r) /\
                   is_Some (uploads (serve w requests) !! filename r))
    (rows (photos (serve w requests))).
Proof.
  revert w. induction requests as [|req requests IH]; intros w Hw; [done|].
  rewrite serve_cons. apply IH.
  assert (Hold : Forall (fun r => (47 ∉ filename r) /\
                   is_Some (uploads (handle w req).2 !! filename r))
                   (rows (photos w))).
  { eapply Forall_impl; [exact Hw|]. intros r [? ?]. split; [done|].
    by apply upload_keeps_files. }
  destruct (handle_cases w req)
    as [(_ & -> & _)|(_ & img & r & _ & Hup & Hname & _)]; [done|].
  rewrite Hup in Hold |- *. simpl in *.
  apply Forall_app. split; [done|]. constructor; [|done]. simpl. split.
  - rewrite Hname. apply stored_name_one_component.
  - by rewrite lookup_insert_eq.
Qed.

(** X15: every record has its image: the file name of a record an upload
    made is one path component, as the route of [get_image] takes, and
    [get_image] answers it with the file as image/jpeg; uploads that
    follow do not change that. *)
Theorem records_have_their_files w requests :
  Forall (fun r => (47 ∉ filename r) /\ is_Some (uploads w !! filename r))
    (rows (photos w)) ->
  Forall (fun r => (47 ∉ filename r) /\
                   get_image (serve w requests) (filename r)
                     = Ok (FileResponse (filename r) "image/jpeg"))
    (rows (photos (serve w requests))).
Proof.
  intros Hw. eapply Forall_impl; [by apply serve_records_files|].
  intros r [? ?]. split; [done|]. by apply get_image_stored.
Qed.

Lemma strftime_to_second now now' :
  to_second now = to_second now' -> strftime now = strftime now'.
Proof. unfold to_second, strftime. by intros [= -> -> -> -> -> ->]. Qed.

(** X17: the name of the stored file does not tell two uploads of the
    same bytes within one second apart: when both are answered with the
    redirect, the second one writes the file of the first again, and the
    table gets two records with one file name and one hash. *)
Theorem same_second_same_file w req1 req2 :
  succeeds req1 = true -> succeeds req2 = true ->
  body (part req1) = body (part req2) ->
  to_second (clock req1) = to_second (clock req2) ->
  let w1 := (handle w req1).2 in
  let w2 := (handle w1 req2).2 in
  uploads w2 = uploads w1 /\
  exists r1 r2,
    rows (photos w2) = rows (photos w) ++ [r1; r2] /\
    filename r1 = filename r2 /\ sha256 r1 = sha256 r2 /\
    photo_id r2 = (photo_id r1 + 1)%Z.
Proof.
  intros Hs1 Hs2 Hbody Hsec. simpl.
  destruct (handle_cases w req1)
    as [(Hs1' & _)|(_ & img & r1 & Himg & -> & Hname1 & _ & Hsha1 & _)];
    [congruence|]. simpl.
  destruct (handle_cases
              {| uploads := <[filename r1 := save_JPEG img]> (uploads w);
                 photos := insert_photo (photos w) r1 |} req2)
    as [(Hs2' & _)|(_ & img' & r2 & Himg' & -> & Hname2 & _ & Hsha2 & _)];
    [congruence|]. simpl.
  assert (img' = img) as -> by congruence.
  assert (Hname : filename r2 = filename r1).
  { rewrite Hname1, Hname2, Hbody. unfold stored_name.
    by rewrite (strftime_to_second _ _ Hsec). }
  split.
  - rewrite Hname. apply insert_insert_eq.
  - eexists _, _. rewrite <- (assoc_L (++)). split; [reflexivity|]. simpl.
    split; [done|]. split; [congruence|done].
Qed.

End Files.

(** ** The tag dictionary *)

Section Tags.

Context {libs : Libraries}.

Local Abbreviation file_item :=
  (fun (res : gmap pystr pystr) (kv : Z * exif_value pyobj) =>
     <[tag_name kv.1 := value_text kv.2]> res).

Lemma exif_dict_fold img :
  _exif_to_dict img = fold_left file_item (items_of img) ∅.
Proof.
  unfold _exif_to_dict, items_of.
  destruct (_getexif img) as [[|kv l]|]; [done| |done]. simpl default.
  generalize (kv :: l) (∅ : gmap pystr pystr). clear.
  intros l. induction l as [|[k v] l IH]; intros acc; [done|]. simpl. apply IH.
Qed.

Lemma exif_fold_snoc items kv :
  fold_left file_item (items ++ [kv]) ∅ =
    <[tag_name kv.1 := value_text kv.2]> (fold_left file_item items ∅).
Proof. by rewrite fold_left_app. Qed.

Lemma exif_fold_keys items :
  (forall t v, fold_left file_item items ∅ !! t = Some v ->
     exists k x, (k, x) ∈ items /\ tag_name k = t /\ value_text x = v) /\
  (forall k x, (k, x) ∈ items ->
     is_Some (fold_left file_item items ∅ !! tag_name k)).
Proof.
  induction items as [|[k0 x0] items [IH1 IH2]] using rev_ind.
  - split; [intros t v; simpl; by rewrite lookup_empty|].
    intros k x Hin. by apply elem_of_nil in Hin.
  - rewrite exif_fold_snoc. simpl. split.
    + intros t v [[<- <-]|[_ Hold]]%lookup_insert_Some.
      * exists k0, x0. split; [|done]. apply elem_of_app. right. by left.
      * destruct (IH1 t v Hold) as (k & x & Hin & ?). exists k, x.
        split; [|done]. apply elem_of_app. by left.
    + intros k x [Hin|Hin]%elem_of_app; apply lookup_insert_is_Some'.
      * right. by apply (IH2 k x).
      * apply list_elem_of_singleton in Hin as [= -> ->]. by left.
Qed.

(** X18: the tag dictionary is empty exactly for an image without tags;
    each of its entries comes from an item of the tag table, under the
    name of the tag (its number when the tag has no name) and with the
    text of the value; every item is filed; and an item filed later
    replaces one filed before under the same name. *)
Theorem exif_dict_keys img :
  (_exif_to_dict img = ∅ <-> items_of img = []) /\
  (forall t v, _exif_to_dict img !! t = Some v ->
     exists k x, (k, x) ∈ items_of img /\ tag_name k = t /\ value_text x = v) /\
  (forall k x, (k, x) ∈ items_of img ->
     is_Some (_exif_to_dict img !! tag_name k)) /\
  (forall items k x, items_of img = items ++ [(k, x)] ->
     _exif_to_dict img !! tag_name k = Some (value_text x)).
Proof.
  rewrite exif_dict_fold.
  destruct (exif_fold_keys (items_of img)) as [H1 H2].
  split; [|split; [done|split; [done|]]].
  - split; [|by intros ->].
    destruct (items_of img) as [|kv l _] using rev_ind; [done|].
    rewrite exif_fold_snoc. intros Hempty. by apply insert_non_empty in Hempty.
  - intros items k x ->. rewrite exif_fold_snoc. apply lookup_insert_eq.
Qed.

End Tags.

(** ** Uploads in the order of time *)

Section Chronology.

Lemma recent_before_irrefl r : ~ recent_before r r.
Proof. intros [H|[_ H]]; [by rewrite text_compare_refl in H|lia]. Qed.

Lemma recent_before_asym r1 r2 :
  recent_before r1 r2 -> recent_before r2 r1 -> False.
Proof.
  intros [H1|[E1 H1]] [H2|[E2 H2]].
  - rewrite text_compare_antisym, H1 in H2. done.
  - rewrite E2, text_compare_refl in H1. done.
  - rewrite E1, text_compare_refl in H2. done.
  - lia.
Qed.

Lemma sorted_NoDup {A} (R : relation A) l :
  (forall x, ~ R x x) -> StronglySorted R l -> NoDup l.
Proof.
  intros Hirr. induction 1 as [|x l _ IH Hx]; constructor; [|done].
  intros Hin. eapply Forall_forall in Hx; [|exact Hin]. by apply (Hirr x).
Qed.

Lemma ascending_app l1 l2 :
  ascending (l1 ++ l2) ->
  ascending l1 /\ ascending l2 /\
  forall x y, x ∈ l1 -> y ∈ l2 -> text_compare (taken_at x) (taken_at y) = Lt.
Proof.
  unfold ascending. rewrite fmap_app, StronglySorted_app.
  intros (H & H1 & H2). repeat split; try done.
  intros x y Hx Hy. apply H; by apply list_elem_of_fmap_2.
Qed.

Lemma ascending_reverse l :
  ascending l -> StronglySorted recent_before (reverse l).
Proof.
  induction l as [|a l IH]; intros Hl; [constructor|].
  rewrite reverse_cons. change (a :: l) with ([a] ++ l) in Hl.
  apply ascending_app in Hl as (_ & Hl & Hlt).
  apply StronglySorted_app_2; [|by apply IH|repeat constructor].
  intros x y Hx ->%list_elem_of_singleton. rewrite elem_of_reverse in Hx. left.
  apply text_compare_Lt_Gt, Hlt; [by apply list_elem_of_singleton|done].
Qed.

Lemma table_of_keys inserts :
  taken_at <$> rows (table_of inserts) = taken_at <$> inserts.
Proof.
  induction inserts as [|x inserts IH] using rev_ind; [done|].
  rewrite table_of_snoc. simpl. by rewrite !fmap_app, IH.
Qed.

(** On a table whose times grow with the rows the query returns the last
    [n] rows, the last one first. *)
Lemma select_recent_ascending n inserts :
  ascending inserts ->
  select_recent n (table_of inserts) = newest_first n (rows (table_of inserts)).
Proof.
  intros Hasc.
  destruct (select_recent_spec n inserts) as (Hlen & Hs & Hin).
  pose proof (select_recent_covers n inserts) as Hcov.
  simpl in Hlen, Hs, Hin.
  assert (HascL : ascending (rows (table_of inserts))).
  { unfold ascending. by rewrite table_of_keys. }
  revert Hlen Hs Hin Hcov HascL.
  generalize (select_recent n (table_of inserts)) (rows (table_of inserts)).
  intros result L Hlen Hs Hin Hcov HascL. unfold newest_first.
  set (k := (length L - n)%nat).
  assert (HT : StronglySorted recent_before (reverse (drop k L))).
  { apply ascending_reverse. rewrite <- (take_drop k L) in HascL.
    by apply ascending_app in HascL as (_ & ? & _). }
  assert (HlenT : length (reverse (drop k L)) = Nat.min n (length L)).
  { rewrite length_reverse, length_drop. lia. }
  assert (Hnd : NoDup result).
  { eapply sorted_NoDup; [apply recent_before_irrefl|done]. }
  assert (Hsub : forall r, r ∈ reverse (drop k L) -> r ∈ result).
  { intros r Hr. rewrite elem_of_reverse in Hr.
    destruct (list_elem_of_split _ _ Hr) as (D1 & D2 & HD).
    assert (HL : L = (take k L ++ D1) ++ r :: D2).
    { by rewrite <- (assoc_L (++)), <- HD, take_drop. }
    assert (HrL : r ∈ L).
    { rewrite HL. apply elem_of_app. right. by left. }
    destruct (proj1 (Forall_forall _ _) Hcov r HrL) as [|[Hfull Hall]]; [done|].
    exfalso. rewrite HL in HascL. apply ascending_app in HascL as (_ & _ & Hlt).
    assert (Hin2 : forall x, x ∈ result -> x ∈ D2).
    { intros x Hx.
      pose proof (proj1 (Forall_forall _ _) Hin x Hx) as HxL.
      pose proof (proj1 (Forall_forall _ _) Hall x Hx) as Hbefore.
      rewrite HL in HxL.
      apply elem_of_app in HxL as [HxL|HxL].
      - specialize (Hlt x r HxL (ltac:(by left))).
        destruct Hbefore as [Hgt|[Heq _]]; [congruence|].
        rewrite Heq, text_compare_refl in Hlt. done.
      - apply elem_of_cons in HxL as [->|HxL]; [|done].
        by apply recent_before_irrefl in Hbefore. }
    pose proof (submseteq_length _ _ (NoDup_submseteq _ _ Hnd Hin2)) as Hle.
    assert (HlenL : length L = (length (take k L) + length D1 + S (length D2))%nat).
    { rewrite HL at 1. rewrite !length_app. simpl. lia. }
    rewrite length_take in HlenL. lia. }
  assert (HndT : NoDup (reverse (drop k L))).
  { eapply sorted_NoDup; [apply recent_before_irrefl|done]. }
  symmetry. eapply StronglySorted_unique_strong; [|exact HT|exact Hs|].
  - intros x y _ _ Hxy Hyx. by destruct (recent_before_asym x y).
  - apply submseteq_length_Permutation; [by apply NoDup_submseteq|lia].
Qed.

Lemma last_newest l : head (newest_first 1 l) = last l.
Proof.
  unfold newest_first. rewrite head_reverse.
  destruct l as [|x l _] using rev_ind; [done|].
  rewrite length_app. simpl.
  replace (length l + 1 - 1)%nat with (length l) by lia.
  by rewrite drop_app_length, last_snoc.
Qed.

(** X19: when the times of the records grow with the order of their
    insertion, the table of the dashboard holds the last 20 records, the
    last one first, and [last] is the record inserted last. *)
Theorem dashboard_of_ascending inserts :
  ascending inserts ->
  let t := table_of inserts in
  (dashboard t).2 = newest_first 20 (rows t) /\
  (dashboard t).1.1 = last (rows t).
Proof.
  intros Hasc. simpl. rewrite !select_recent_ascending by done.
  split; [done|apply last_newest].
Qed.

Lemma isoformat_ascending off times :
  in_order_of_time off times ->
  StronglySorted (fun a b => text_compare a b = Lt) (isoformat <$> times).
Proof.
  intros [Hvalid Hsorted].
  induction Hsorted as [|d times _ IH Hd]; csimpl; constructor.
  - apply IH. by inversion_clear Hvalid.
  - inversion_clear Hvalid as [|? ? [Hv Hoff] Hrest].
    apply Forall_fmap, Forall_forall. intros d' Hd'. unfold compose.
    pose proof (proj1 (Forall_forall _ _) Hd d' Hd') as Hlt.
    destruct (proj1 (Forall_forall _ _) Hrest d' Hd') as [Hv' Hoff'].
    rewrite isoformat_compare; [done..|congruence].
Qed.

Lemma in_order_filter {A} off (time : A -> datetime) (P : A -> Prop)
    `{!forall x, Decision (P x)} (l : list A) :
  in_order_of_time off (time <$> l) ->
  in_order_of_time off (time <$> filter P l).
Proof.
  unfold in_order_of_time.
  induction l as [|x l IH]; [done|]. rewrite fmap_cons.
  rewrite Forall_cons, StronglySorted_cons.
  intros [[Hx Hl] [Hlt Hs]]. destruct (IH (conj Hl Hs)) as [IH1 IH2].
  rewrite filter_cons. destruct (decide (P x)); [|done]. rewrite fmap_cons.
  rewrite Forall_cons, StronglySorted_cons.
  split; [by split|]. split; [|done].
  apply Forall_fmap, Forall_forall. intros y [_ Hy]%list_elem_of_filter.
  apply Forall_fmap in Hlt. by apply (proj1 (Forall_forall _ _) Hlt y).
Qed.

End Chronology.

Section ServedInOrder.

Context {libs : Libraries}.

(** The table after a sequence of uploads is the table with one insert
    more for each upload that was answered with the redirect, at its
    time. *)
Lemma serve_table w inserts requests :
  photos w = table_of inserts ->
  exists more,
    photos (serve w requests) = table_of (inserts ++ more) /\
    taken_at <$> more =
      isoformat <$> (clock <$> filter (fun req => succeeds req = true) requests).
Proof.
  revert w inserts. induction requests as [|req requests IH]; intros w inserts Hw.
  - exists []. by rewrite (right_id_L [] (++)).
  - rewrite serve_cons, filter_cons.
    destruct (handle_cases w req)
      as [(Hs & Hphotos & _)|(Hs & img & r & _ & -> & _ & Htime & _)];
      destruct (decide _) as [Hd|Hd]; try congruence; simpl.
    + apply IH. by rewrite Hphotos.
    + destruct (IH {| uploads := <[filename r := save_JPEG img]> (uploads w);
                      photos := insert_photo (photos w) r |} (inserts ++ [r]))
        as (more & Hphotos & Htimes).
      { simpl. by rewrite Hw, table_of_snoc. }
      exists (r :: more). rewrite <- (assoc_L (++)) in Hphotos.
      split; [done|]. csimpl. by rewrite Htime, Htimes.
Qed.

(** X20: when the uploads are handled at moments of one UTC offset, each
    later than the one before, the records of the table carry the times
    of the uploads that were answered with the redirect, in their order;
    the table of the dashboard then holds the last 20 of them, the last
    one first, and [last] is the one of them made last. *)
Theorem dashboard_after_uploads off requests :
  in_order_of_time off (clock <$> requests) ->
  let w := serve empty_world requests in
  taken_at <$> rows (photos w) =
    isoformat <$> (clock <$> filter (fun req => succeeds req = true) requests) /\
  (dashboard (photos w)).2 = newest_first 20 (rows (photos w)) /\
  (dashboard (photos w)).1.1 = last (rows (photos w)).
Proof.
  intros Horder.
  destruct (serve_table empty_world [] requests eq_refl) as (more & Hphotos & Htimes).
  simpl in Hphotos. cbv zeta. rewrite Hphotos.
  assert (Hasc : ascending more).
  { unfold ascending. rewrite Htimes.
    apply (isoformat_ascending off). by apply in_order_filter. }
  rewrite table_of_keys. split; [done|].
  simpl. rewrite !select_recent_ascending by done.
  split; [done|apply last_newest].
Qed.

End ServedInOrder.

(** ** The theorems on uploads at sample inputs *)

Lemma failed_upload_adds_no_record_witness :
  let photo := sample_upload "image/png" in
  let env := {| read_raises := None; save_raises := None;
                insert_raises := Some OperationalError |} in
  let w' := (upload_photo (libs := test_bench) empty_world photo morning env).2 in
  upload_photo (libs := test_bench) empty_world photo morning env
    = (Raise OperationalError, w') /\
  photos w' = photos empty_world /\
  uploads w' !! stored_name morning (body photo) = Some [].
Proof.
  intros photo env w'.
  assert (H : upload_photo (libs := test_bench) empty_world photo morning env
              = (Raise OperationalError, w')) by reflexivity.
  split; [exact H|].
  split; [exact (proj1 (failed_upload_adds_no_record (libs := test_bench)
                          empty_world photo morning env _ _ H))|].
  reflexivity.
Defined.

Lemma accepted_upload_adds_one_record_witness :
  accepted (libs := test_bench) (sample_upload "image/png") = true /\
  exists img r,
    Image_open_RGB (Libraries := test_bench) (body (sample_upload "image/png"))
      = Ok img /\
    (upload_photo (libs := test_bench) empty_world (sample_upload "image/png")
       morning no_faults).1 = Ok (RedirectResponse (str "/") 303) /\
    let w' := (upload_photo (libs := test_bench) empty_world
                 (sample_upload "image/png") morning no_faults).2 in
    rows (photos w') = rows (photos empty_world) ++ [r] /\
    photo_id r = (last_rowid (photos empty_world) + 1)%Z /\
    filename r = stored_name morning (body (sample_upload "image/png")) /\
    ocr_temp_c r = None /\ ocr_humidity r = None /\
    uploads w' !! filename r = Some (save_JPEG (Libraries := test_bench) img).
Proof.
  split; [reflexivity|].
  apply (accepted_upload_adds_one_record (libs := test_bench)
           empty_world (sample_upload "image/png") morning no_faults);
    reflexivity.
Defined.

Lemma served_series_is_empty_witness :
  Forall (fun r => has_reading r = false) (rows (photos empty_world)) /\
  (dashboard (photos (serve (libs := test_bench) empty_world
                        [sample_request "image/png" morning]))).1.2 = [].
Proof.
  split; [constructor|].
  apply (served_series_is_empty (libs := test_bench) empty_world). constructor.
Defined.

Lemma records_have_their_files_witness :
  Forall (fun r => (47 ∉ filename r) /\ is_Some (uploads empty_world !! filename r))
    (rows (photos empty_world)) /\
  Forall (fun r => (47 ∉ filename r) /\
                   get_image (libs := test_bench)
                     (serve (libs := test_bench) empty_world
                        [sample_request "image/png" morning]) (filename r)
                     = Ok (FileResponse (filename r) "image/jpeg"))
    (rows (photos (serve (libs := test_bench) empty_world
                     [sample_request "image/png" morning]))).
Proof.
  split; [constructor|].
  apply (records_have_their_files (libs := test_bench) empty_world). constructor.
Defined.

Lemma same_second_same_file_witness :
  let req1 := sample_request "image/png" morning in
  let req2 := sample_request "image/png" later_that_second in
  succeeds (libs := test_bench) req1 = true /\
  succeeds (libs := test_bench) req2 = true /\
  body (part req1) = body (part req2) /\
  to_second (clock req1) = to_second (clock req2) /\
  let w1 := (handle (libs := test_bench) empty_world req1).2 in
  let w2 := (handle (libs := test_bench) w1 req2).2 in
  uploads w2 = uploads w1 /\
  exists r1 r2,
    rows (photos w2) = rows (photos empty_world) ++ [r1; r2] /\
    filename r1 = filename r2 /\ sha256 r1 = sha256 r2 /\
    photo_id r2 = (photo_id r1 + 1)%Z.
Proof.
  intros req1 req2.
  split; [reflexivity|]. split; [reflexivity|]. split; [reflexivity|].
  split; [reflexivity|].
  apply (same_second_same_file (libs := test_bench) empty_world req1 req2);
    reflexivity.
Defined.

Lemma dashboard_of_ascending_witness :
  let inserts := [bare_record "2025-03-14T09:26:53.589793-03:00";
                  bare_record "2025-03-14T09:26:54-03:00"] in
  ascending inserts /\
  (dashboard (table_of inserts)).2 = newest_first 20 (rows (table_of inserts)) /\
  (dashboard (table_of inserts)).1.1 = last (rows (table_of inserts)).
Proof.
  assert (H : ascending [bare_record "2025-03-14T09:26:53.589793-03:00";
                         bare_record "2025-03-14T09:26:54-03:00"]).
  { unfold ascending. repeat constructor. }
  split; [exact H|].
  exact (dashboard_of_ascending _ H).
Defined.

Lemma dashboard_after_uploads_witness :
  let requests := [sample_request "image/png" morning;
                   sample_request "text/plain" later_that_second;
                   sample_request "image/png" a_second_later] in
  in_order_of_time (-10800) (clock <$> requests) /\
  let w := serve (libs := test_bench) empty_world requests in
  taken_at <$> rows (photos w) =
    isoformat <$> (clock <$> filter (fun req => succeeds (libs := test_bench) req = true)
                               requests) /\
  (dashboard (photos w)).2 = newest_first 20 (rows (photos w)) /\
  (dashboard (photos w)).1.1 = last (rows (photos w)).
Proof.
  assert (H : in_order_of_time (-10800)
                (clock <$> [sample_request "image/png" morning;
                            sample_request "text/plain" later_that_second;
                            sample_request "image/png" a_second_later])).
  { split.
    - repeat (constructor; [split; [unfold valid_datetime; simpl; lia|reflexivity]|]).
      constructor.
    - repeat constructor. }
  split; [exact H|].
  exact (dashboard_after_uploads (libs := test_bench) (-10800) _ H).
Defined.
